(** * sistema_unificado.py: five structural patterns, embedded and verified

    A shallow embedding of [src/sistema_unificado.py].  Python objects
    that are only configured at construction time are records and
    inductive values; objects whose identity or mutable state is
    observable (the service objects the wrappers delegate to, and the
    nodes of the Composite, whose [Panel.children] list is appended in
    place) live in a store addressed by references.  Every method runs
    in a small state-and-failure monad over the [world]: the text
    written by [print], the next free reference, and the UI store. *)

From Stdlib Require Import String Ascii DecimalString.
From stdpp Require Import base option list relations gmap.

Set Warnings "-register-all".

#[local] Open Scope Z_scope.

(** ** Python strings

    A Python [str] is a sequence of Unicode code points; [message[::-1]]
    and [message[:10]] work on code points, not on bytes.  Literals of the
    source are written as UTF-8 string literals and decoded by [lit]. *)

Definition str : Type := list N.

Fixpoint utf8_decode (bs : list N) : str :=
  match bs with
  | [] => []
  | b :: r =>
      if (b <? 128)%N then b :: utf8_decode r
      else if (b <? 224)%N then
        match r with
        | c1 :: r1 => ((b - 192) * 64 + (c1 - 128))%N :: utf8_decode r1
        | _ => []
        end
      else if (b <? 240)%N then
        match r with
        | c1 :: c2 :: r2 =>
            ((b - 224) * 4096 + (c1 - 128) * 64 + (c2 - 128))%N :: utf8_decode r2
        | _ => []
        end
      else
        match r with
        | c1 :: c2 :: c3 :: r3 =>
            ((b - 240) * 262144 + (c1 - 128) * 4096 + (c2 - 128) * 64 + (c3 - 128))%N
              :: utf8_decode r3
        | _ => []
        end
  end.

Definition lit (s : string) : str :=
  utf8_decode (map N_of_ascii (list_ascii_of_string s)).

(** [str(n)] for a Python [int]: decimal digits, a leading [-] when negative. *)
Definition str_of_int (n : Z) : str :=
  lit (NilZero.string_of_int (Z.to_int n)).

(** [" " * k]: a negative count gives the empty string. *)
Definition spaces (k : Z) : str := replicate (Z.to_nat k) 32%N.

(** [s[::-1]] and [s[:10]]. *)
Definition reversed (s : str) : str := reverse s.
Definition prefix10 (s : str) : str := take 10 s.

(** ** The world and the monad of method bodies *)

Definition ref : Type := nat.

(** Argument values recorded with a call. *)
Inductive value : Type :=
  | VInt (n : Z)
  | VStr (s : str).

(** What an execution leaves behind: a line written by [print], or
    (instrumentation) the entry into a method of a service object, with
    the receiver, the method name and the arguments. *)
Inductive event : Type :=
  | Print (line : str)
  | Call (self : ref) (name : string) (args : list value).

(** Nodes of the Composite as they sit in the store: a [Panel] holds
    references to its children, in insertion order. *)
Inductive UIComponent : Type :=
  | Button (label : str)
  | TextField (name : str)
  | Panel (children : list ref).

Record world : Type := World {
  trace : list event;
  next_ref : ref;
  ui : gmap ref UIComponent
}.

Definition IO (A : Type) : Type := world → option (A * world).

Definition ret {A} (a : A) : IO A := λ w, Some (a, w).

Definition bind {A B} (m : IO A) (k : A → IO B) : IO B :=
  λ w, match m w with
       | Some (a, w') => k a w'
       | None => None
       end.

(** An uncaught exception: the call does not return. *)
Definition raise {A} : IO A := λ _, None.

Declare Scope io_scope.
Delimit Scope io_scope with io.
Bind Scope io_scope with IO.
Notation "x <- m ;; k" := (bind m (λ x, k))
  (at level 100, m at next level, right associativity) : io_scope.
Notation "m ;; k" := (bind m (λ _, k))
  (at level 100, right associativity) : io_scope.
#[local] Open Scope io_scope.

Definition emit (e : event) : IO unit :=
  λ w, Some (tt, World (trace w ++ [e]) (next_ref w) (ui w)).

Definition print (line : str) : IO unit := emit (Print line).

Definition called (self : ref) (name : string) (args : list value) : IO unit :=
  emit (Call self name args).

(** Allocation of a new object: a reference never handed out before. *)
Definition new_object : IO ref :=
  λ w, Some (next_ref w, World (trace w) (S (next_ref w)) (ui w)).

Definition get_ui (r : ref) : IO UIComponent :=
  λ w, match ui w !! r with
       | Some c => Some (c, w)
       | None => None
       end.

Definition set_ui (r : ref) (c : UIComponent) : IO unit :=
  λ w, Some (tt, World (trace w) (next_ref w) (<[r := c]> (ui w))).

Fixpoint for_each {A} (l : list A) (body : A → IO unit) : IO unit :=
  match l with
  | [] => ret tt
  | x :: l' => body x ;; for_each l' body
  end.

(** The lines on standard output, and the calls, of a trace. *)
Definition printed (t : list event) : list str :=
  omap (λ e, match e with Print s => Some s | Call _ _ _ => None end) t.

Definition calls (t : list event) : list (ref * string * list value) :=
  omap (λ e, match e with Call r n a => Some (r, n, a) | Print _ => None end) t.

(** The world before anything ran. *)
Definition initial : world := World [] 0%nat ∅.

(** ** 1. Adapter *)

Module ExternalPaymentAPI.
Record t : Type := { self_ref : ref }.

Definition new : IO t :=
  r <- new_object ;; ret {| self_ref := r |}.

Definition send_payment (self : t) (amount : Z) : IO unit :=
  called (self_ref self) "send_payment" [VInt amount] ;;
  print (lit "[API Externa] Pago enviado por $" ++ str_of_int amount).
End ExternalPaymentAPI.

Module PaymentAdapter.
Record t : Type := { external_api : ExternalPaymentAPI.t }.

Definition new (external_api : ExternalPaymentAPI.t) : IO t :=
  ret {| external_api := external_api |}.

Definition pay (self : t) (amount : Z) : IO unit :=
  print (lit "[Adapter] Adaptando interfaz interna a API externa...") ;;
  ExternalPaymentAPI.send_payment (external_api self) amount.
End PaymentAdapter.

(** ** 2. Facade *)

Module InvoiceGenerator.
Record t : Type := { self_ref : ref }.

Definition new : IO t :=
  r <- new_object ;; ret {| self_ref := r |}.

Definition generate (self : t) (user : str) (amount : Z) : IO unit :=
  called (self_ref self) "generate" [VStr user; VInt amount] ;;
  print (lit "[Factura] Generando factura para " ++ user
           ++ lit " por $" ++ str_of_int amount).
End InvoiceGenerator.

Module Database.
Record t : Type := { self_ref : ref }.

Definition new : IO t :=
  r <- new_object ;; ret {| self_ref := r |}.

Definition save_invoice (self : t) (user : str) (amount : Z) : IO unit :=
  called (self_ref self) "save_invoice" [VStr user; VInt amount] ;;
  print (lit "[BD] Guardando factura de " ++ user
           ++ lit " por $" ++ str_of_int amount).
End Database.

Module MessageSender.
Record t : Type := { self_ref : ref }.

Definition new : IO t :=
  r <- new_object ;; ret {| self_ref := r |}.

Definition send (self : t) (message : str) : IO unit :=
  called (self_ref self) "send" [VStr message] ;;
  print (lit "[Mensaje] Enviado: " ++ message).
End MessageSender.

Module BillingFacade.
Record t : Type := {
  generator : InvoiceGenerator.t;
  database : Database.t;
  sender : MessageSender.t
}.

Definition new : IO t :=
  generator <- InvoiceGenerator.new ;;
  database <- Database.new ;;
  sender <- MessageSender.new ;;
  ret {| generator := generator; database := database; sender := sender |}.

Definition process_billing (self : t) (user : str) (amount : Z) : IO unit :=
  print (lit "[Fachada] Procesando facturación...") ;;
  InvoiceGenerator.generate (generator self) user amount ;;
  Database.save_invoice (database self) user amount ;;
  MessageSender.send (sender self)
    (lit "Factura generada para " ++ user ++ lit " por $" ++ str_of_int amount).
End BillingFacade.

(** ** 3. Decorator

    A decorator keeps the component it was constructed with and never
    replaces it, so a chain is a finite nesting ending in a
    [BasicMessage]; [send] dispatches on the class of the receiver. *)

Inductive MessageComponent : Type :=
  | BasicMessage (self_ref : ref)
  | EncryptionDecorator (component : MessageComponent)
  | CompressionDecorator (component : MessageComponent).

Module BasicMessage.
Definition new : IO MessageComponent :=
  r <- new_object ;; ret (BasicMessage r).
End BasicMessage.

Module EncryptionDecorator.
Definition new (component : MessageComponent) : IO MessageComponent :=
  ret (EncryptionDecorator component).
End EncryptionDecorator.

Module CompressionDecorator.
Definition new (component : MessageComponent) : IO MessageComponent :=
  ret (CompressionDecorator component).
End CompressionDecorator.

Module MessageComponent.
Fixpoint send (self : MessageComponent) (message : str) : IO unit :=
  match self with
  | BasicMessage r =>
      called r "send" [VStr message] ;;
      print (lit "[Mensaje] " ++ message)
  | EncryptionDecorator component =>
      let encrypted := lit "<encriptado>" ++ reversed message ++ lit "</encriptado>" in
      send component encrypted
  | CompressionDecorator component =>
      let compressed := lit "<comprimido>" ++ prefix10 message ++ lit "...</comprimido>" in
      send component compressed
  end.
End MessageComponent.

(** ** 4. Composite

    [render] follows child references through the store; a panel added
    to itself (or to one of its descendants) makes the Python recursion
    endless, so the recursion is bounded by [fuel] and a run that
    exhausts it has no result. *)

Module Button.
Definition new (label : str) : IO ref :=
  r <- new_object ;; set_ui r (Button label) ;; ret r.
End Button.

Module TextField.
Definition new (name : str) : IO ref :=
  r <- new_object ;; set_ui r (TextField name) ;; ret r.
End TextField.

Module Panel.
Definition new : IO ref :=
  r <- new_object ;; set_ui r (Panel []) ;; ret r.

(** [self.children.append(component)]; only a [Panel] has [add]. *)
Definition add (self component : ref) : IO unit :=
  c <- get_ui self ;;
  match c with
  | Panel children => set_ui self (Panel (children ++ [component]))
  | _ => raise
  end.
End Panel.

Module UIComponent.
Fixpoint render (fuel : nat) (self : ref) (depth : Z) : IO unit :=
  match fuel with
  | O => raise
  | S fuel' =>
      c <- get_ui self ;;
      match c with
      | Button label =>
          print (spaces depth ++ lit "[Botón: " ++ label ++ lit "]")
      | TextField name =>
          print (spaces depth ++ lit "[Campo de Texto: " ++ name ++ lit "]")
      | Panel children =>
          print (spaces depth ++ lit "[Panel]") ;;
          for_each children (λ c, render fuel' c (depth + 2))
      end
  end.
End UIComponent.

(** ** 5. Proxy *)

Module RealDatabase.
Record t : Type := { self_ref : ref }.

Definition new : IO t :=
  r <- new_object ;; ret {| self_ref := r |}.

Definition read (self : t) : IO unit :=
  called (self_ref self) "read" [] ;;
  print (lit "[BD] Leyendo datos...").

Definition write (self : t) : IO unit :=
  called (self_ref self) "write" [] ;;
  print (lit "[BD] Escribiendo datos...").
End RealDatabase.

Module DatabaseProxy.
Record t : Type := {
  user_type : str;
  database : RealDatabase.t
}.

Definition new (user_type : str) : IO t :=
  database <- RealDatabase.new ;;
  ret {| user_type := user_type; database := database |}.

Definition read (self : t) : IO unit :=
  print (lit "[Proxy] Usuario '" ++ user_type self ++ lit "' accediendo a lectura.") ;;
  RealDatabase.read (database self).

Definition write (self : t) : IO unit :=
  if decide (user_type self = lit "admin") then
    print (lit "[Proxy] Usuario '" ++ user_type self ++ lit "' escribiendo...") ;;
    RealDatabase.write (database self)
  else
    print (lit "[Proxy] Acceso denegado para escritura.").
End DatabaseProxy.

(** ** The demonstration script *)

Definition newline : N := 10%N.

Definition main (fuel : nat) : IO unit :=
  print (newline :: lit "--- Pago con Adapter ---") ;;
  external_api <- ExternalPaymentAPI.new ;;
  payment <- PaymentAdapter.new external_api ;;
  PaymentAdapter.pay payment 100 ;;

  print (newline :: lit "--- Facturación con Facade ---") ;;
  facade <- BillingFacade.new ;;
  BillingFacade.process_billing facade (lit "Alice") 100 ;;

  print (newline :: lit "--- Envío de mensajes con Decorators ---") ;;
  message <- BasicMessage.new ;;
  encrypted <- EncryptionDecorator.new message ;;
  compressed <- CompressionDecorator.new encrypted ;;
  MessageComponent.send compressed (lit "Factura lista y enviada correctamente") ;;

  print (newline :: lit "--- Interfaz gráfica con Composite ---") ;;
  main_panel <- Panel.new ;;
  b <- Button.new (lit "Pagar") ;;
  Panel.add main_panel b ;;
  sub_panel <- Panel.new ;;
  f1 <- TextField.new (lit "Nombre") ;;
  Panel.add sub_panel f1 ;;
  f2 <- TextField.new (lit "Correo") ;;
  Panel.add sub_panel f2 ;;
  Panel.add main_panel sub_panel ;;
  UIComponent.render fuel main_panel 0 ;;

  print (newline :: lit "--- Acceso a base de datos con Proxy ---") ;;
  guest_db <- DatabaseProxy.new (lit "invitado") ;;
  admin_db <- DatabaseProxy.new (lit "admin") ;;
  DatabaseProxy.read guest_db ;;
  DatabaseProxy.write guest_db ;;
  DatabaseProxy.write admin_db.

Definition stdout_of {A} (r : option (A * world)) : option (list str) :=
  match r with
  | Some (_, w) => Some (printed (trace w))
  | None => None
  end.

(** ** Composite: the tree a store node stands for

    When no panel is among its own descendants, the nodes reached from a
    reference form a finite tree; [unfolds h r t] says that [t] is that
    tree.  [preorder] is the traversal the specification asks for, as
    pairs of a depth and the text of the node. *)

Inductive ui_tree : Type :=
  | TButton (label : str)
  | TTextField (name : str)
  | TPanel (children : list ui_tree).

Inductive unfolds (h : gmap ref UIComponent) : ref → ui_tree → Prop :=
  | unfolds_Button r label :
      h !! r = Some (Button label) → unfolds h r (TButton label)
  | unfolds_TextField r name :
      h !! r = Some (TextField name) → unfolds h r (TTextField name)
  | unfolds_Panel r cs ts :
      h !! r = Some (Panel cs) →
      Forall2 (unfolds h) cs ts →
      unfolds h r (TPanel ts).

Definition node_text (t : ui_tree) : str :=
  match t with
  | TButton label => lit "[Botón: " ++ label ++ lit "]"
  | TTextField name => lit "[Campo de Texto: " ++ name ++ lit "]"
  | TPanel _ => lit "[Panel]"
  end.

Fixpoint preorder (t : ui_tree) (depth : Z) : list (Z * str) :=
  (depth, node_text t) ::
  match t with
  | TPanel ts => flat_map (λ c, preorder c (depth + 2)) ts
  | _ => []
  end.

Definition indented (dl : Z * str) : str := spaces (fst dl) ++ snd dl.

Fixpoint node_count (t : ui_tree) : nat :=
  match t with
  | TPanel ts => S (list_sum (map node_count ts))
  | _ => 1%nat
  end.

Fixpoint height (t : ui_tree) : nat :=
  match t with
  | TPanel ts => S (foldr Nat.max 0%nat (map height ts))
  | _ => 1%nat
  end.

(** [b] is in the [children] list of panel [a]. *)
Definition child (h : gmap ref UIComponent) (a b : ref) : Prop :=
  ∃ cs, h !! a = Some (Panel cs) ∧ b ∈ cs.

(** No node reached from [root] is its own descendant. *)
Definition acyclic_from (h : gmap ref UIComponent) (root : ref) : Prop :=
  ∀ n, rtc (child h) root n → ¬ tc (child h) n n.

(** Every reference reached from [root] is a node of the store. *)
Definition closed_from (h : gmap ref UIComponent) (root : ref) : Prop :=
  ∀ n, rtc (child h) root n → is_Some (h !! n).

(** The world after [print] wrote the given lines. *)
Definition emit_lines (ls : list str) (w : world) : world :=
  World (trace w ++ map Print ls) (next_ref w) (ui w).

(** The tree of the demonstration script, and the calls that build it. *)
Definition demo_tree : ui_tree :=
  TPanel [ TButton (lit "Pagar");
           TPanel [ TTextField (lit "Nombre"); TTextField (lit "Correo") ] ].

Definition build_demo_ui : IO ref :=
  main_panel <- Panel.new ;;
  b <- Button.new (lit "Pagar") ;;
  Panel.add main_panel b ;;
  sub_panel <- Panel.new ;;
  f1 <- TextField.new (lit "Nombre") ;;
  Panel.add sub_panel f1 ;;
  f2 <- TextField.new (lit "Correo") ;;
  Panel.add sub_panel f2 ;;
  Panel.add main_panel sub_panel ;;
  ret main_panel.

Definition demo_world : world :=
  match build_demo_ui initial with
  | Some (_, w) => w
  | None => initial
  end.

(** ** Decorator: chains as lists of layers *)

Inductive decorator : Type := Encryption | Compression.

Definition wrap (d : decorator) (c : MessageComponent) : MessageComponent :=
  match d with
  | Encryption => EncryptionDecorator c
  | Compression => CompressionDecorator c
  end.

Definition transform (d : decorator) (message : str) : str :=
  match d with
  | Encryption => lit "<encriptado>" ++ reversed message ++ lit "</encriptado>"
  | Compression => lit "<comprimido>" ++ prefix10 message ++ lit "...</comprimido>"
  end.

(** The layers of a chain, outermost first, and its base sender. *)
Fixpoint layers (c : MessageComponent) : list decorator :=
  match c with
  | BasicMessage _ => []
  | EncryptionDecorator c' => Encryption :: layers c'
  | CompressionDecorator c' => Compression :: layers c'
  end.

Fixpoint base_of (c : MessageComponent) : ref :=
  match c with
  | BasicMessage r => r
  | EncryptionDecorator c' | CompressionDecorator c' => base_of c'
  end.

(** The chain with the given layers, outermost first, around a base. *)
Definition chain (ds : list decorator) (base : ref) : MessageComponent :=
  foldr wrap (BasicMessage base) ds.

(** The transformations of the layers applied in turn, outermost first. *)
Definition delivered (ds : list decorator) (message : str) : str :=
  foldl (λ m d, transform d m) message ds.

(** The wrappings as the specification words them. *)
Definition spec_encrypted (message : str) : str :=
  lit "<encrypted>" ++ reversed message ++ lit "</encrypted>".

Definition spec_compressed (message : str) : str :=
  lit "<compressed>" ++ prefix10 message ++ lit "...</compressed>".

(** ** Proxy: what a client can do with the class

    A client creates proxies and calls [read] and [write] on the ones it
    created; [session] runs such a script, keeping the proxies in
    creation order. *)

Inductive proxy_op : Type :=
  | NewProxy (user_type : str)
  | ProxyRead (k : nat)
  | ProxyWrite (k : nat).

Definition proxy_step (op : proxy_op) (ps : list DatabaseProxy.t)
  : IO (list DatabaseProxy.t) :=
  match op with
  | NewProxy user_type =>
      p <- DatabaseProxy.new user_type ;; ret (ps ++ [p])
  | ProxyRead k =>
      match ps !! k with
      | Some p => DatabaseProxy.read p ;; ret ps
      | None => raise
      end
  | ProxyWrite k =>
      match ps !! k with
      | Some p => DatabaseProxy.write p ;; ret ps
      | None => raise
      end
  end.

Fixpoint session (ops : list proxy_op) (ps : list DatabaseProxy.t)
  : IO (list DatabaseProxy.t) :=
  match ops with
  | [] => ret ps
  | op :: ops' => ps' <- proxy_step op ps ;; session ops' ps'
  end.

Definition store_of (p : DatabaseProxy.t) : ref :=
  RealDatabase.self_ref (DatabaseProxy.database p).

(** The calls on real stores that a step of a script is to make, given
    the proxies of the session: a read reaches the store of the proxy it
    is called on, a write reaches it when the proxy's role is ["admin"]. *)
Definition calls_of_op (ps : list DatabaseProxy.t) (op : proxy_op)
  : list (ref * string * list value) :=
  match op with
  | NewProxy _ => []
  | ProxyRead k =>
      match ps !! k with
      | Some p => [(store_of p, "read"%string, [])]
      | None => []
      end
  | ProxyWrite k =>
      match ps !! k with
      | Some p =>
          if decide (DatabaseProxy.user_type p = lit "admin")
          then [(store_of p, "write"%string, [])]
          else []
      | None => []
      end
  end.

(** The proxy part of the demonstration script. *)
Definition demo_ops : list proxy_op :=
  [ NewProxy (lit "invitado"); NewProxy (lit "admin");
    ProxyRead 0; ProxyWrite 0; ProxyWrite 1 ].

(** The events a run added to the trace. *)
Definition emitted {A} (m : IO A) (w : world) : option (list event) :=
  match m w with
  | Some (_, w') => Some (drop (length (trace w)) (trace w'))
  | None => None
  end.

(** ** Construction without operations

    [quiet m]: [m] returns and writes nothing.  [construct_all] builds
    every object of the demonstration script and calls no operation of
    the five interfaces ([Panel.add] only links nodes). *)

Definition quiet {A} (m : IO A) : Prop :=
  ∀ w, ∃ a w', m w = Some (a, w') ∧ trace w' = trace w.

Definition construct_all : IO unit :=
  external_api <- ExternalPaymentAPI.new ;;
  payment <- PaymentAdapter.new external_api ;;
  facade <- BillingFacade.new ;;
  message <- BasicMessage.new ;;
  encrypted <- EncryptionDecorator.new message ;;
  compressed <- CompressionDecorator.new encrypted ;;
  main_panel <- Panel.new ;;
  b <- Button.new (lit "Pagar") ;;
  Panel.add main_panel b ;;
  sub_panel <- Panel.new ;;
  f1 <- TextField.new (lit "Nombre") ;;
  Panel.add sub_panel f1 ;;
  f2 <- TextField.new (lit "Correo") ;;
  Panel.add sub_panel f2 ;;
  Panel.add main_panel sub_panel ;;
  guest_db <- DatabaseProxy.new (lit "invitado") ;;
  admin_db <- DatabaseProxy.new (lit "admin") ;;
  ret tt.

(** ** References in use

    Constructors number new objects from [next_ref]; a world is well
    formed when every node of the UI store was numbered that way. *)

Definition wf_world (w : world) : Prop :=
  ∀ r, is_Some (ui w !! r) → (r < next_ref w)%nat.

(** * Verification *)

(** ** The monad *)

Lemma bind_Some {A B} (m : IO A) (k : A → IO B) w a w' :
  m w = Some (a, w') → bind m k w = k a w'.
Proof. unfold bind. by intros ->. Qed.

Lemma bind_None {A B} (m : IO A) (k : A → IO B) w :
  m w = None → bind m k w = None.
Proof. unfold bind. by intros ->. Qed.

Lemma emitted_app {A} (m : IO A) w a evs n h :
  m w = Some (a, World (trace w ++ evs) n h) → emitted m w = Some evs.
Proof.
  unfold emitted. intros ->. simpl. by rewrite drop_app_length.
Qed.

Lemma printed_app t1 t2 : printed (t1 ++ t2) = printed t1 ++ printed t2.
Proof. unfold printed. by rewrite omap_app. Qed.

Lemma printed_Print ls : printed (map Print ls) = ls.
Proof. induction ls as [|l ls IH]; [done | by rewrite <- IH at 2]. Qed.

Lemma calls_Print ls : calls (map Print ls) = [].
Proof. by induction ls. Qed.

(** Running the steps of a method body: unfold the monad and tidy the trace. *)
Ltac io_run :=
  unfold bind, ret, print, called, emit, new_object, set_ui; simpl;
  rewrite <- ?(assoc_L (++)); simpl.

(** ** The demonstration script, end to end *)

Example main_output :
  stdout_of (main 3 initial)
  = Some [ newline :: lit "--- Pago con Adapter ---";
           lit "[Adapter] Adaptando interfaz interna a API externa...";
           lit "[API Externa] Pago enviado por $100";
           newline :: lit "--- Facturación con Facade ---";
           lit "[Fachada] Procesando facturación...";
           lit "[Factura] Generando factura para Alice por $100";
           lit "[BD] Guardando factura de Alice por $100";
           lit "[Mensaje] Enviado: Factura generada para Alice por $100";
           newline :: lit "--- Envío de mensajes con Decorators ---";
           lit "[Mensaje] <encriptado>>odimirpmoc/<...il arutcaF>odimirpmoc<</encriptado>";
           newline :: lit "--- Interfaz gráfica con Composite ---";
           lit "[Panel]";
           lit "  [Botón: Pagar]";
           lit "  [Panel]";
           lit "    [Campo de Texto: Nombre]";
           lit "    [Campo de Texto: Correo]";
           newline :: lit "--- Acceso a base de datos con Proxy ---";
           lit "[Proxy] Usuario 'invitado' accediendo a lectura.";
           lit "[BD] Leyendo datos...";
           lit "[Proxy] Acceso denegado para escritura.";
           lit "[Proxy] Usuario 'admin' escribiendo...";
           lit "[BD] Escribiendo datos..." ].
Proof. vm_compute. reflexivity. Qed.

Example lit_decodes_code_points :
  lit "Botón" = [66; 111; 116; 243; 110]%N.
Proof. reflexivity. Qed.

Example str_of_int_examples :
  str_of_int 100 = lit "100" ∧ str_of_int 0 = lit "0" ∧ str_of_int (-7) = lit "-7".
Proof. by vm_compute. Qed.

(** ** 1. Adapter *)

(** C6.  For every amount [a >= 0], [PaymentAdapter.pay(a)] returns
    [None] (no value), and all it does is: write the adaptation notice,
    then invoke [send_payment] on the wrapped external API exactly once,
    with the same amount [a].  Nothing is allocated and the UI store is
    untouched. *)
Theorem PaymentAdapter_pay_sends_once (self : PaymentAdapter.t) (a : Z) (w : world) :
  0 ≤ a →
  let api := PaymentAdapter.external_api self in
  PaymentAdapter.pay self a w
  = Some (tt, World (trace w ++
                       [ Print (lit "[Adapter] Adaptando interfaz interna a API externa...");
                         Call (ExternalPaymentAPI.self_ref api) "send_payment" [VInt a];
                         Print (lit "[API Externa] Pago enviado por $" ++ str_of_int a) ])
                    (next_ref w) (ui w))
  ∧ PaymentAdapter.pay self a w
    = (print (lit "[Adapter] Adaptando interfaz interna a API externa...") ;;
       ExternalPaymentAPI.send_payment api a) w
  ∧ (∃ evs, emitted (PaymentAdapter.pay self a) w = Some evs
            ∧ calls evs = [(ExternalPaymentAPI.self_ref api, "send_payment"%string, [VInt a])]).
Proof.
  intros _ api.
  assert (Hrun : PaymentAdapter.pay self a w
    = Some (tt, World (trace w ++
                       [ Print (lit "[Adapter] Adaptando interfaz interna a API externa...");
                         Call (ExternalPaymentAPI.self_ref api) "send_payment" [VInt a];
                         Print (lit "[API Externa] Pago enviado por $" ++ str_of_int a) ])
                    (next_ref w) (ui w))).
  { unfold PaymentAdapter.pay, ExternalPaymentAPI.send_payment. by io_run. }
  split; [exact Hrun|]. split; [reflexivity|].
  eexists. split; [exact (emitted_app _ _ _ _ _ _ Hrun)|]. reflexivity.
Qed.

Lemma PaymentAdapter_pay_sends_once_witness :
  0 ≤ 100 ∧
  stdout_of (PaymentAdapter.pay {| PaymentAdapter.external_api := {| ExternalPaymentAPI.self_ref := 0%nat |} |} 100 initial)
  = Some [ lit "[Adapter] Adaptando interfaz interna a API externa...";
           lit "[API Externa] Pago enviado por $100" ].
Proof.
  split; [lia|].
  destruct (PaymentAdapter_pay_sends_once
              {| PaymentAdapter.external_api := {| ExternalPaymentAPI.self_ref := 0%nat |} |}
              100 initial) as [H _]; [lia|].
  rewrite H. reflexivity.
Defined.

(** ** 2. Facade *)

(** C7.  For every user [u] and amount [a], [process_billing(u, a)]
    returns, and the calls it makes on its three services are, in this
    order and once each: [generate(u, a)] on the invoice generator,
    [save_invoice(u, a)] on the database, [send(...)] on the message
    sender; no branch guards any of them. *)
Theorem BillingFacade_process_billing_order
    (self : BillingFacade.t) (u : str) (a : Z) (w : world) :
  let g := InvoiceGenerator.self_ref (BillingFacade.generator self) in
  let d := Database.self_ref (BillingFacade.database self) in
  let s := MessageSender.self_ref (BillingFacade.sender self) in
  let note := lit "Factura generada para " ++ u ++ lit " por $" ++ str_of_int a in
  BillingFacade.process_billing self u a w
  = Some (tt, World (trace w ++
                       [ Print (lit "[Fachada] Procesando facturación...");
                         Call g "generate" [VStr u; VInt a];
                         Print (lit "[Factura] Generando factura para " ++ u
                                  ++ lit " por $" ++ str_of_int a);
                         Call d "save_invoice" [VStr u; VInt a];
                         Print (lit "[BD] Guardando factura de " ++ u
                                  ++ lit " por $" ++ str_of_int a);
                         Call s "send" [VStr note];
                         Print (lit "[Mensaje] Enviado: " ++ note) ])
                    (next_ref w) (ui w))
  ∧ (∃ evs, emitted (BillingFacade.process_billing self u a) w = Some evs
            ∧ calls evs = [ (g, "generate"%string, [VStr u; VInt a]);
                            (d, "save_invoice"%string, [VStr u; VInt a]);
                            (s, "send"%string, [VStr note]) ]).
Proof.
  intros g d s note.
  match goal with |- ?run = ?res ∧ _ => assert (Hrun : run = res) end.
  { unfold BillingFacade.process_billing, InvoiceGenerator.generate,
      Database.save_invoice, MessageSender.send. by io_run. }
  split; [exact Hrun|].
  eexists. split; [exact (emitted_app _ _ _ _ _ _ Hrun)|]. reflexivity.
Qed.

(** ** 3. Decorator *)

Lemma send_wrap d c m :
  MessageComponent.send (wrap d c) m = MessageComponent.send c (transform d m).
Proof. by destruct d. Qed.

Lemma send_layers c : ∀ m,
  MessageComponent.send c m
  = MessageComponent.send (BasicMessage (base_of c)) (delivered (layers c) m).
Proof.
  induction c as [r | c IH | c IH]; intros m; [done | |];
    simpl MessageComponent.send; rewrite IH; reflexivity.
Qed.

Lemma layers_chain ds base :
  layers (chain ds base) = ds ∧ base_of (chain ds base) = base.
Proof.
  induction ds as [|d ds [IH1 IH2]]; [done|].
  destruct d; simpl; by rewrite IH1, IH2.
Qed.

Lemma send_BasicMessage r text w :
  MessageComponent.send (BasicMessage r) text w
  = Some (tt, World (trace w ++ [ Call r "send" [VStr text];
                                  Print (lit "[Mensaje] " ++ text) ])
                    (next_ref w) (ui w)).
Proof. simpl. by io_run. Qed.

Lemma emitted_send c m w :
  emitted (MessageComponent.send c m) w
  = Some [ Call (base_of c) "send" [VStr (delivered (layers c) m)];
           Print (lit "[Mensaje] " ++ delivered (layers c) m) ].
Proof.
  rewrite send_layers. eapply emitted_app. apply send_BasicMessage.
Qed.

Lemma orders_differ m :
  delivered [Compression; Encryption] m ≠ delivered [Encryption; Compression] m.
Proof.
  intros H. apply (f_equal (take 2)) in H. vm_compute in H. discriminate.
Qed.

(** C3 as amended.  For every input text and every inner component, the
    encryption decorator reverses the character sequence of the input,
    wraps it as [<encriptado>{reversed}</encriptado>], and delegates
    exactly that string to the inner component's [send]. *)
Theorem EncryptionDecorator_send (component : MessageComponent) (message : str) :
  MessageComponent.send (EncryptionDecorator component) message
  = MessageComponent.send component
      (lit "<encriptado>" ++ reversed message ++ lit "</encriptado>")
  ∧ length (reversed message) = length message
  ∧ (∀ i, (i < length message)%nat →
          reversed message !! i = message !! (length message - S i)%nat).
Proof.
  split; [reflexivity|]. unfold reversed. split.
  - apply length_reverse.
  - intros i Hi. by apply reverse_lookup.
Qed.

(** C3 as worded fails: what the inner component receives is not the
    text wrapped in [<encrypted>] tags. *)
Lemma EncryptionDecorator_send_spec_tags_differ :
  emitted (MessageComponent.send (EncryptionDecorator (BasicMessage 0%nat))
             (lit "HELLO WORLD")) initial
  ≠ emitted (MessageComponent.send (BasicMessage 0%nat)
               (spec_encrypted (lit "HELLO WORLD"))) initial.
Proof. vm_compute. discriminate. Qed.

Example EncryptionDecorator_hello :
  emitted (MessageComponent.send (EncryptionDecorator (BasicMessage 0%nat))
             (lit "HELLO WORLD")) initial
  = Some [ Call 0%nat "send" [VStr (lit "<encriptado>DLROW OLLEH</encriptado>")];
           Print (lit "[Mensaje] <encriptado>DLROW OLLEH</encriptado>") ].
Proof. reflexivity. Qed.

(** C4 as amended.  For every input text and every inner component, the
    compression decorator takes the first 10 characters of the input
    (all of it when it is shorter), wraps them as
    [<comprimido>{prefix}...</comprimido>], and delegates exactly that
    string to the inner component's [send]. *)
Theorem CompressionDecorator_send (component : MessageComponent) (message : str) :
  MessageComponent.send (CompressionDecorator component) message
  = MessageComponent.send component
      (lit "<comprimido>" ++ prefix10 message ++ lit "...</comprimido>")
  ∧ length (prefix10 message) = (10 `min` length message)%nat
  ∧ (∀ i, (i < 10)%nat → prefix10 message !! i = message !! i)
  ∧ (∃ rest, message = prefix10 message ++ rest).
Proof.
  split; [reflexivity|]. unfold prefix10. split; [|split].
  - apply length_take.
  - intros i Hi. by apply lookup_take_lt.
  - exists (drop 10 message). by rewrite take_drop.
Qed.

(** C4 as worded fails: what the inner component receives is not the
    text wrapped in [<compressed>] tags. *)
Lemma CompressionDecorator_send_spec_tags_differ :
  emitted (MessageComponent.send (CompressionDecorator (BasicMessage 0%nat))
             (lit "HELLO WORLD")) initial
  ≠ emitted (MessageComponent.send (BasicMessage 0%nat)
               (spec_compressed (lit "HELLO WORLD"))) initial.
Proof. vm_compute. discriminate. Qed.

Example CompressionDecorator_hello :
  emitted (MessageComponent.send (CompressionDecorator (BasicMessage 0%nat))
             (lit "HELLO WORLD")) initial
  = Some [ Call 0%nat "send" [VStr (lit "<comprimido>HELLO WORL...</comprimido>")];
           Print (lit "[Mensaje] <comprimido>HELLO WORL...</comprimido>") ].
Proof. reflexivity. Qed.

Example CompressionDecorator_short :
  emitted (MessageComponent.send (CompressionDecorator (BasicMessage 0%nat))
             (lit "HOLA")) initial
  = Some [ Call 0%nat "send" [VStr (lit "<comprimido>HOLA...</comprimido>")];
           Print (lit "[Mensaje] <comprimido>HOLA...</comprimido>") ].
Proof. reflexivity. Qed.

(** C1 as amended.  In every chain, each decorator transforms its input
    and passes the result to the component it wraps, so the text that
    reaches the base sender is the transformations applied outermost
    first.  With [Compression] outermost around [Encryption] around the
    base (the nesting of the demonstration script) and input
    ["HELLO WORLD"], compression first cuts the original text to its
    first 10 characters and wraps it, and encryption then reverses that
    whole wrapped string.  It is with [Encryption] outermost around
    [Compression] that encryption reverses the full string and
    compression cuts the encrypted result to 10 characters.  The two
    orders deliver different texts to the base sender, for every input. *)
Theorem decorators_apply_outermost_first :
  (∀ d c m, MessageComponent.send (wrap d c) m
            = MessageComponent.send c (transform d m))
  ∧ (∀ c m, MessageComponent.send c m
            = MessageComponent.send (BasicMessage (base_of c))
                (delivered (layers c) m))
  ∧ (∀ ds base, layers (chain ds base) = ds ∧ base_of (chain ds base) = base)
  ∧ (∀ base w,
       emitted (MessageComponent.send (chain [Compression; Encryption] base)
                  (lit "HELLO WORLD")) w
       = Some [ Call base "send"
                  [VStr (lit "<encriptado>>odimirpmoc/<...LROW OLLEH>odimirpmoc<</encriptado>")];
                Print (lit "[Mensaje] <encriptado>>odimirpmoc/<...LROW OLLEH>odimirpmoc<</encriptado>") ])
  ∧ transform Compression (lit "HELLO WORLD")
    = lit "<comprimido>HELLO WORL...</comprimido>"
  ∧ delivered [Compression; Encryption] (lit "HELLO WORLD")
    = transform Encryption (lit "<comprimido>HELLO WORL...</comprimido>")
  ∧ (∀ base w,
       emitted (MessageComponent.send (chain [Encryption; Compression] base)
                  (lit "HELLO WORLD")) w
       = Some [ Call base "send" [VStr (lit "<comprimido><encriptad...</comprimido>")];
                Print (lit "[Mensaje] <comprimido><encriptad...</comprimido>") ])
  ∧ transform Encryption (lit "HELLO WORLD")
    = lit "<encriptado>DLROW OLLEH</encriptado>"
  ∧ delivered [Encryption; Compression] (lit "HELLO WORLD")
    = transform Compression (lit "<encriptado>DLROW OLLEH</encriptado>")
  ∧ (∀ m, delivered [Compression; Encryption] m
          ≠ delivered [Encryption; Compression] m)
  ∧ (∀ m base w,
       emitted (MessageComponent.send (chain [Compression; Encryption] base) m) w
       ≠ emitted (MessageComponent.send (chain [Encryption; Compression] base) m) w).
Proof.
  split_and!.
  - apply send_wrap.
  - intros c. apply send_layers.
  - apply layers_chain.
  - intros base w. rewrite emitted_send. by vm_compute.
  - by vm_compute.
  - by vm_compute.
  - intros base w. rewrite emitted_send. by vm_compute.
  - by vm_compute.
  - by vm_compute.
  - apply orders_differ.
  - intros m base w. rewrite !emitted_send.
    change (layers (chain [Compression; Encryption] base))
      with [Compression; Encryption].
    change (layers (chain [Encryption; Compression] base))
      with [Encryption; Compression].
    intros H. apply (orders_differ m). congruence.
Qed.

(** C1 as worded fails for the nesting it names: with
    [Compression] outermost, what reaches the base sender is not the
    compression of the encrypted text. *)
Lemma compression_outermost_is_not_encryption_first :
  emitted (MessageComponent.send (chain [Compression; Encryption] 0%nat)
             (lit "HELLO WORLD")) initial
  ≠ emitted (MessageComponent.send (BasicMessage 0%nat)
               (transform Compression (transform Encryption (lit "HELLO WORLD")))) initial.
Proof. vm_compute. discriminate. Qed.

(** ** 4. Composite *)

Lemma ui_tree_ind' (P : ui_tree → Prop) :
  (∀ label, P (TButton label)) →
  (∀ name, P (TTextField name)) →
  (∀ ts, Forall P ts → P (TPanel ts)) →
  ∀ t, P t.
Proof.
  intros Hb Ht Hp. fix IH 1. intros [label | name | ts].
  - apply Hb.
  - apply Ht.
  - apply Hp. induction ts as [|t ts IHts]; constructor; [apply IH | exact IHts].
Qed.

Lemma emit_lines_app l1 l2 w :
  emit_lines l2 (emit_lines l1 w) = emit_lines (l1 ++ l2) w.
Proof.
  unfold emit_lines. simpl. by rewrite map_app, (assoc_L (++)).
Qed.

Lemma print_emit_lines line w : print line w = Some (tt, emit_lines [line] w).
Proof. reflexivity. Qed.

Lemma length_preorder t : ∀ depth, length (preorder t depth) = node_count t.
Proof.
  induction t as [label | name | ts IH] using ui_tree_ind'; intros depth;
    [done | done |].
  simpl. f_equal.
  induction IH as [|t ts Ht _ IHts]; [done|].
  simpl. by rewrite length_app, Ht, IHts.
Qed.

Lemma length_spaces depth : length (spaces depth) = Z.to_nat depth.
Proof. apply length_replicate. Qed.

(** The children of a panel, each rendered with enough fuel. *)
Lemma for_each_render h fuel depth cs ts :
  Forall2 (unfolds h) cs ts →
  Forall (λ t, ∀ h r fuel depth w,
            ui w = h → unfolds h r t → (height t ≤ fuel)%nat →
            UIComponent.render fuel r depth w
            = Some (tt, emit_lines (map indented (preorder t depth)) w)) ts →
  Forall (λ t, (height t ≤ fuel)%nat) ts →
  ∀ w, ui w = h →
  for_each cs (λ c, UIComponent.render fuel c depth) w
  = Some (tt, emit_lines (map indented (flat_map (λ t, preorder t depth) ts)) w).
Proof.
  induction 1 as [|c t cs ts Hc _ IH]; intros HP Hh w Hw.
  - unfold emit_lines. simpl. rewrite (right_id_L [] (++)). by destruct w.
  - apply Forall_cons in HP as [Ht HP]. apply Forall_cons in Hh as [Hht Hh].
    simpl. erewrite bind_Some by (by eapply Ht).
    rewrite IH by done. by rewrite emit_lines_app, map_app.
Qed.

Lemma height_children fuel ts :
  (foldr Nat.max 0 (map height ts) ≤ fuel)%nat →
  Forall (λ t, (height t ≤ fuel)%nat) ts.
Proof.
  induction ts as [|t ts IH]; simpl; intros H; constructor; [lia|].
  apply IH. lia.
Qed.

Lemma render_unfolds t : ∀ r fuel depth w,
  unfolds (ui w) r t → (height t ≤ fuel)%nat →
  UIComponent.render fuel r depth w
  = Some (tt, emit_lines (map indented (preorder t depth)) w).
Proof.
  cut (∀ h r fuel depth w, ui w = h → unfolds h r t → (height t ≤ fuel)%nat →
         UIComponent.render fuel r depth w
         = Some (tt, emit_lines (map indented (preorder t depth)) w)).
  { intros H r fuel depth w. by apply H. }
  induction t as [label | name | ts IH] using ui_tree_ind';
    intros h r fuel depth w Hw Hunf Hfuel; inversion Hunf; subst;
    (destruct fuel as [|fuel]; [simpl in Hfuel; lia|]);
    simpl UIComponent.render; unfold bind at 1, get_ui;
    match goal with H : ui w !! r = Some _ |- _ => rewrite H end.
  - reflexivity.
  - reflexivity.
  - rewrite (bind_Some _ _ _ _ _ (print_emit_lines _ _)).
    erewrite for_each_render; [| eassumption | exact IH | | reflexivity].
    + by rewrite emit_lines_app.
    + apply height_children. simpl in Hfuel. lia.
Qed.

Lemma unfolds_functional h : ∀ t r t', unfolds h r t → unfolds h r t' → t = t'.
Proof.
  induction t as [label | name | ts IH] using ui_tree_ind';
    intros r t' H1 H2; inversion H1; inversion H2; subst; try congruence.
  replace cs0 with cs in * by congruence. f_equal.
  match goal with
  | Ha : Forall2 _ cs ts, Hb : Forall2 _ cs ?ts0 |- _ =>
      clear - IH Ha Hb; revert ts0 Hb; induction Ha as [|c t cs ts Hc _ IHa];
        intros ts0 Hb; inversion Hb; subst; [done|]
  end.
  apply Forall_cons in IH as [Ht IH]. f_equal; [by eapply Ht | by apply IHa].
Qed.

Lemma height_elem_of (t : ui_tree) ts :
  t ∈ ts → (height t ≤ foldr Nat.max 0 (map height ts))%nat.
Proof.
  induction 1 as [t ts | t t' ts _ IH]; simpl; lia.
Qed.

Lemma unfolds_child h a t b :
  unfolds h a t → child h a b →
  ∃ t', unfolds h b t' ∧ (height t' < height t)%nat.
Proof.
  intros Ha (cs & Hcs & Hb). inversion Ha; subst; try congruence.
  replace cs0 with cs in * by congruence.
  apply list_elem_of_lookup in Hb as [i Hi].
  match goal with H : Forall2 _ cs ts |- _ =>
    destruct (Forall2_lookup_l _ _ _ _ _ H Hi) as (t' & Hts & Ht') end.
  exists t'. split; [done|]. simpl.
  apply list_elem_of_lookup_2 in Hts. apply height_elem_of in Hts. lia.
Qed.

Lemma unfolds_rtc h a t n :
  unfolds h a t → rtc (child h) a n →
  ∃ t', unfolds h n t' ∧ (height t' ≤ height t)%nat.
Proof.
  intros Ha Hrtc. revert t Ha.
  induction Hrtc as [a | a b n Hab _ IH]; intros t Ha; [by exists t|].
  destruct (unfolds_child _ _ _ _ Ha Hab) as (tb & Hb & Hlt).
  destruct (IH _ Hb) as (t' & Hn & Hle). exists t'. split; [done | lia].
Qed.

Lemma unfolds_tc h a t n :
  unfolds h a t → tc (child h) a n →
  ∃ t', unfolds h n t' ∧ (height t' < height t)%nat.
Proof.
  intros Ha Htc. revert t Ha.
  induction Htc as [a b Hab | a b n Hab _ IH]; intros t Ha.
  - by apply (unfolds_child _ a).
  - destruct (unfolds_child _ _ _ _ Ha Hab) as (tb & Hb & Hlt).
    destruct (IH _ Hb) as (t' & Hn & Hlt'). exists t'. split; [done | lia].
Qed.

(** A store node that stands for a finite tree has all its nodes in the
    store and none of them below itself. *)
Lemma unfolds_closed_acyclic h root t :
  unfolds h root t → closed_from h root ∧ acyclic_from h root.
Proof.
  intros Hroot. split.
  - intros n Hn. destruct (unfolds_rtc _ _ _ _ Hroot Hn) as (t' & Ht' & _).
    inversion Ht'; eauto.
  - intros n Hn Hcycle.
    destruct (unfolds_rtc _ _ _ _ Hroot Hn) as (tn & Htn & _).
    destruct (unfolds_tc _ _ _ _ Htn Hcycle) as (t' & Ht' & Hlt).
    rewrite (unfolds_functional _ _ _ _ Htn Ht') in Hlt. lia.
Qed.

(** Distinct nodes of the store are no more than the store holds. *)
Lemma nodes_bounded (h : gmap ref UIComponent) (l : list ref) :
  NoDup l → (∀ a, a ∈ l → is_Some (h !! a)) → (length l ≤ size h)%nat.
Proof.
  intros Hnd Hin. rewrite <- size_dom.
  change (size (dom h)) with (length (elements (dom h))).
  apply submseteq_length, NoDup_submseteq; [done|].
  intros a Ha. apply elem_of_elements, elem_of_dom. by apply Hin.
Qed.

Lemma Forall2_choice {A B} (R : A → B → Prop) (l : list A) :
  (∀ a, a ∈ l → ∃ b, R a b) → ∃ k, Forall2 R l k.
Proof.
  induction l as [|a l IH]; intros H; [by exists []|].
  destruct (H a) as [b Hb]; [by left|].
  destruct IH as [k Hk]; [intros a' Ha'; apply H; by right|].
  exists (b :: k). by constructor.
Qed.

(** Along a path from the root no node repeats, so a path is no longer
    than the store: [k] bounds what is left of it. *)
Lemma acyclic_unfolds h root :
  closed_from h root → acyclic_from h root →
  ∀ k anc r,
    rtc (child h) root r →
    NoDup anc →
    (∀ a, a ∈ anc → tc (child h) a r) →
    (∀ a, a ∈ anc → is_Some (h !! a)) →
    (size h ≤ k + length anc)%nat →
    ∃ t, unfolds h r t.
Proof.
  intros Hclosed Hacyclic.
  induction k as [|k IH]; intros anc r Hr Hnd Hanc Hdom Hsize.
  - assert (Hnd' : NoDup (r :: anc)).
    { constructor; [|done]. intros Hin. by apply (Hacyclic r Hr), Hanc. }
    assert (length (r :: anc) ≤ size h)%nat; [|simpl in *; lia].
    apply nodes_bounded; [done|].
    intros a [->|Ha]%elem_of_cons; [by apply Hclosed | by apply Hdom].
  - destruct (Hclosed r Hr) as [[label | name | cs] Hlook].
    + exists (TButton label). by constructor.
    + exists (TTextField name). by constructor.
    + assert (Hnotin : r ∉ anc).
      { intros Hin. by apply (Hacyclic r Hr), Hanc. }
      destruct (Forall2_choice (unfolds h) cs) as [ts Hts].
      { intros c Hc.
        assert (Hrc : child h r c) by (by exists cs).
        apply (IH (r :: anc)).
        - by eapply rtc_r.
        - by constructor.
        - intros a [->|Ha]%elem_of_cons; [by apply tc_once|].
          eapply tc_r; [by apply Hanc | done].
        - intros a [->|Ha]%elem_of_cons; [by apply Hclosed | by apply Hdom].
        - simpl. lia. }
      exists (TPanel ts). by econstructor.
Qed.

Lemma closed_acyclic_unfolds h root :
  closed_from h root → acyclic_from h root → ∃ t, unfolds h root t.
Proof.
  intros Hclosed Hacyclic.
  apply (acyclic_unfolds h root Hclosed Hacyclic (size h) [] root);
    [done | constructor | | | simpl; lia]; intros a Ha; by apply elem_of_nil in Ha.
Qed.

(** A panel that was added to itself: no amount of fuel renders it. *)
Lemma render_self_loop r : ∀ fuel depth w,
  ui w !! r = Some (Panel [r]) → UIComponent.render fuel r depth w = None.
Proof.
  induction fuel as [|fuel IH]; intros depth w Hr; [done|].
  simpl. unfold bind at 1, get_ui. rewrite Hr.
  rewrite (bind_Some _ _ _ _ _ (print_emit_lines _ _)). simpl.
  apply bind_None, IH. exact Hr.
Qed.

Example panel_added_to_itself (fuel : nat) :
  (p <- Panel.new ;; Panel.add p p ;; UIComponent.render fuel p 0) initial = None.
Proof.
  unfold bind at 1. simpl. unfold bind at 1. simpl.
  apply render_self_loop. reflexivity.
Qed.

Lemma demo_world_unfolds : unfolds (ui demo_world) 0%nat demo_tree.
Proof.
  apply (unfolds_Panel _ _ [1; 2]%nat); [by vm_compute|].
  constructor; [apply unfolds_Button; by vm_compute|].
  constructor; [|constructor].
  apply (unfolds_Panel _ _ [3; 4]%nat); [by vm_compute|].
  constructor; [apply unfolds_TextField; by vm_compute|].
  constructor; [apply unfolds_TextField; by vm_compute|].
  constructor.
Qed.

(** C2.  [render(depth)] walks the tree below a node in pre-order, depth
    first, children in insertion order: with enough fuel for the height
    of the tree it returns, and what it writes is exactly the lines of
    [preorder], where a leaf gives one line at [depth], a panel gives its
    own line at [depth] followed by its children at [depth + 2], and a
    line at depth [d >= 0] starts with [d] spaces.  For the panel of the
    demonstration script at depth 0 the lines are [[Panel]] at 0,
    [[Botón: Pagar]] at 2, [[Panel]] at 2, [[Campo de Texto: Nombre]] at
    4 and [[Campo de Texto: Correo]] at 4. *)
Theorem render_is_preorder (w : world) (r : ref) (t : ui_tree) (depth : Z) (fuel : nat) :
  unfolds (ui w) r t →
  (height t ≤ fuel)%nat →
  UIComponent.render fuel r depth w
  = Some (tt, emit_lines (map indented (preorder t depth)) w)
  ∧ printed (trace (emit_lines (map indented (preorder t depth)) w))
    = printed (trace w) ++ map indented (preorder t depth)
  ∧ (∀ label d, preorder (TButton label) d
                = [(d, lit "[Botón: " ++ label ++ lit "]")])
  ∧ (∀ name d, preorder (TTextField name) d
               = [(d, lit "[Campo de Texto: " ++ name ++ lit "]")])
  ∧ (∀ ts d, preorder (TPanel ts) d
             = (d, lit "[Panel]") :: flat_map (λ c, preorder c (d + 2)) ts)
  ∧ (∀ d s, 0 ≤ d →
            take (Z.to_nat d) (indented (d, s)) = replicate (Z.to_nat d) 32%N
            ∧ drop (Z.to_nat d) (indented (d, s)) = s)
  ∧ preorder demo_tree 0
    = [ (0, lit "[Panel]");
        (2, lit "[Botón: Pagar]");
        (2, lit "[Panel]");
        (4, lit "[Campo de Texto: Nombre]");
        (4, lit "[Campo de Texto: Correo]") ]
  ∧ map indented (preorder demo_tree 0)
    = [ lit "[Panel]";
        lit "  [Botón: Pagar]";
        lit "  [Panel]";
        lit "    [Campo de Texto: Nombre]";
        lit "    [Campo de Texto: Correo]" ].
Proof.
  intros Hunf Hfuel. split_and!.
  - by apply render_unfolds.
  - unfold emit_lines. simpl. by rewrite printed_app, printed_Print.
  - reflexivity.
  - reflexivity.
  - reflexivity.
  - intros d s _. unfold indented, spaces. simpl.
    by rewrite take_app_length', drop_app_length' by (by rewrite length_replicate).
  - by vm_compute.
  - by vm_compute.
Qed.

Lemma render_is_preorder_witness :
  unfolds (ui demo_world) 0%nat demo_tree
  ∧ (height demo_tree ≤ 3)%nat
  ∧ stdout_of (UIComponent.render 3 0%nat 0 demo_world)
    = Some [ lit "[Panel]";
             lit "  [Botón: Pagar]";
             lit "  [Panel]";
             lit "    [Campo de Texto: Nombre]";
             lit "    [Campo de Texto: Correo]" ].
Proof.
  split; [exact demo_world_unfolds|]. split; [vm_compute; lia|].
  destruct (render_is_preorder demo_world 0%nat demo_tree 0 3 demo_world_unfolds)
    as (Hrun & _); [vm_compute; lia|].
  rewrite Hrun. by vm_compute.
Defined.

(** C9.  When every node reached from the root is in the store and none
    of them is its own descendant, the nodes below the root form one
    finite tree; [render] then returns at every depth, given fuel for
    the height of that tree, and writes exactly as many lines as the tree
    has nodes. *)
Theorem render_terminates_one_line_per_node (w : world) (root : ref) :
  closed_from (ui w) root →
  acyclic_from (ui w) root →
  ∃ t, unfolds (ui w) root t
       ∧ (∀ t', unfolds (ui w) root t' → t' = t)
       ∧ ∀ depth, ∃ lines,
           length lines = node_count t
           ∧ ∀ fuel, (height t ≤ fuel)%nat →
               UIComponent.render fuel root depth w = Some (tt, emit_lines lines w)
               ∧ printed (trace (emit_lines lines w)) = printed (trace w) ++ lines.
Proof.
  intros Hclosed Hacyclic.
  destruct (closed_acyclic_unfolds _ _ Hclosed Hacyclic) as [t Ht].
  exists t. split_and!; [done | |].
  - intros t' Ht'. by apply (unfolds_functional (ui w) _ root).
  - intros depth. exists (map indented (preorder t depth)). split.
    + by rewrite length_map, length_preorder.
    + intros fuel Hfuel. split; [by apply render_unfolds|].
      unfold emit_lines. simpl. by rewrite printed_app, printed_Print.
Qed.

Lemma render_terminates_one_line_per_node_witness :
  closed_from (ui demo_world) 0%nat
  ∧ acyclic_from (ui demo_world) 0%nat
  ∧ ∃ t, unfolds (ui demo_world) 0%nat t ∧ node_count t = 5%nat.
Proof.
  destruct (unfolds_closed_acyclic _ _ _ demo_world_unfolds) as [Hc Ha].
  split; [exact Hc|]. split; [exact Ha|].
  destruct (render_terminates_one_line_per_node demo_world 0%nat Hc Ha)
    as (t & Ht & Huniq & _).
  exists t. split; [exact Ht|].
  rewrite <- (Huniq _ demo_world_unfolds). reflexivity.
Defined.

(** A node that sits in two places is rendered in both: the lines
    count the nodes of the tree the root unfolds to. *)
Example button_added_twice :
  stdout_of ((p <- Panel.new ;; b <- Button.new (lit "Pagar") ;;
              Panel.add p b ;; Panel.add p b ;;
              UIComponent.render 2 p 0) initial)
  = Some [ lit "[Panel]"; lit "  [Botón: Pagar]"; lit "  [Botón: Pagar]" ].
Proof. by vm_compute. Qed.

(** ** 5. Proxy *)

Lemma DatabaseProxy_read_run (self : DatabaseProxy.t) (w : world) :
  DatabaseProxy.read self w
  = Some (tt, World (trace w ++
                       [ Print (lit "[Proxy] Usuario '" ++ DatabaseProxy.user_type self
                                  ++ lit "' accediendo a lectura.");
                         Call (store_of self) "read" [];
                         Print (lit "[BD] Leyendo datos...") ])
                    (next_ref w) (ui w)).
Proof. unfold DatabaseProxy.read, RealDatabase.read, store_of. by io_run. Qed.

Lemma DatabaseProxy_write_run (self : DatabaseProxy.t) (w : world) :
  DatabaseProxy.write self w
  = Some (tt, World (trace w ++
                       (if decide (DatabaseProxy.user_type self = lit "admin")
                        then [ Print (lit "[Proxy] Usuario '" ++ DatabaseProxy.user_type self
                                        ++ lit "' escribiendo...");
                               Call (store_of self) "write" [];
                               Print (lit "[BD] Escribiendo datos...") ]
                        else [ Print (lit "[Proxy] Acceso denegado para escritura.") ]))
                    (next_ref w) (ui w)).
Proof.
  unfold DatabaseProxy.write, RealDatabase.write, store_of.
  destruct (decide (DatabaseProxy.user_type self = lit "admin")); by io_run.
Qed.

(** C5.  [write()] of a proxy with role [r] returns normally in every
    case; when [r] is ["admin"] it writes its logging line and then calls
    [write] on the real store, otherwise it writes the denial line and
    makes no call: the store's [write] is called if and only if [r] is
    ["admin"].  [read()] writes the access line naming the role and then
    calls [read] on the real store, whatever the role. *)
Theorem DatabaseProxy_access_control (self : DatabaseProxy.t) (w : world) :
  let r := DatabaseProxy.user_type self in
  let store := store_of self in
  let write_events :=
    if decide (r = lit "admin")
    then [ Print (lit "[Proxy] Usuario '" ++ r ++ lit "' escribiendo...");
           Call store "write" [];
           Print (lit "[BD] Escribiendo datos...") ]
    else [ Print (lit "[Proxy] Acceso denegado para escritura.") ] in
  DatabaseProxy.write self w
  = Some (tt, World (trace w ++ write_events) (next_ref w) (ui w))
  ∧ ((store, "write"%string, []) ∈ calls write_events ↔ r = lit "admin")
  ∧ (calls write_events ≠ [] ↔ r = lit "admin")
  ∧ DatabaseProxy.read self w
    = Some (tt, World (trace w ++
                         [ Print (lit "[Proxy] Usuario '" ++ r
                                    ++ lit "' accediendo a lectura.");
                           Call store "read" [];
                           Print (lit "[BD] Leyendo datos...") ])
                      (next_ref w) (ui w)).
Proof.
  intros r store write_events. subst write_events r store.
  split; [apply DatabaseProxy_write_run|].
  split_and!; [| | apply DatabaseProxy_read_run];
    destruct (decide (DatabaseProxy.user_type self = lit "admin")) as [Hadmin | Hother];
    simpl; split; try done.
  - intros _. set_solver.
  - intros H. by apply elem_of_nil in H.
Qed.

Example proxy_guest_write :
  emitted (DatabaseProxy.write
             {| DatabaseProxy.user_type := lit "invitado";
                DatabaseProxy.database := {| RealDatabase.self_ref := 7%nat |} |}) initial
  = Some [ Print (lit "[Proxy] Acceso denegado para escritura.") ].
Proof. reflexivity. Qed.

Example proxy_admin_write :
  emitted (DatabaseProxy.write
             {| DatabaseProxy.user_type := lit "admin";
                DatabaseProxy.database := {| RealDatabase.self_ref := 7%nat |} |}) initial
  = Some [ Print (lit "[Proxy] Usuario 'admin' escribiendo...");
           Call 7%nat "write" [];
           Print (lit "[BD] Escribiendo datos...") ].
Proof. reflexivity. Qed.

(** The comparison is exact: a role that only looks like the privileged
    one is denied. *)
Example proxy_Admin_write_denied :
  emitted (DatabaseProxy.write
             {| DatabaseProxy.user_type := lit "Admin";
                DatabaseProxy.database := {| RealDatabase.self_ref := 7%nat |} |}) initial
  = Some [ Print (lit "[Proxy] Acceso denegado para escritura.") ].
Proof. reflexivity. Qed.

(** *** One store per proxy *)

Lemma calls_app t1 t2 : calls (t1 ++ t2) = calls t1 ++ calls t2.
Proof. unfold calls. by rewrite omap_app. Qed.

Lemma DatabaseProxy_new_fresh user_type w :
  DatabaseProxy.new user_type w
  = Some ({| DatabaseProxy.user_type := user_type;
             DatabaseProxy.database := {| RealDatabase.self_ref := next_ref w |} |},
          World (trace w) (S (next_ref w)) (ui w)).
Proof. reflexivity. Qed.

Lemma calls_of_op_prefix ps more op ps1 w w1 :
  proxy_step op ps w = Some (ps1, w1) →
  calls_of_op (ps ++ more) op = calls_of_op ps op.
Proof.
  destruct op as [role | k | k]; simpl; [done | |];
    destruct (ps !! k) as [p|] eqn:Hk; try done;
    by rewrite (lookup_app_l_Some _ _ _ _ Hk).
Qed.

(** One step of a script: the proxies so far are kept, a new proxy comes
    with a store numbered from the free references, and the calls made
    are the ones [calls_of_op] names. *)
Lemma proxy_step_inv op ps w ps1 w1 :
  proxy_step op ps w = Some (ps1, w1) →
  ∃ more evs,
    ps1 = ps ++ more
    ∧ NoDup (map store_of more)
    ∧ (∀ p, p ∈ more → (next_ref w ≤ store_of p < next_ref w1)%nat)
    ∧ (next_ref w ≤ next_ref w1)%nat
    ∧ trace w1 = trace w ++ evs
    ∧ calls evs = calls_of_op ps op.
Proof.
  destruct op as [role | k | k]; simpl.
  - rewrite (bind_Some _ _ _ _ _ (DatabaseProxy_new_fresh role w)).
    intros [= <- <-]. eexists [_], []. simpl.
    split_and!; [done | apply NoDup_singleton | | lia
                | by rewrite (right_id_L [] (++)) | done].
    intros p ->%list_elem_of_singleton. unfold store_of. simpl. lia.
  - destruct (ps !! k) as [p|]; [|done].
    rewrite (bind_Some _ _ _ _ _ (DatabaseProxy_read_run p w)). intros [= <- <-].
    eexists [], _. simpl.
    split_and!; [by rewrite (right_id_L [] (++)) | constructor | | lia | done | done].
    intros q Hq. by apply elem_of_nil in Hq.
  - destruct (ps !! k) as [p|]; [|done].
    rewrite (bind_Some _ _ _ _ _ (DatabaseProxy_write_run p w)). intros [= <- <-].
    eexists [], _. simpl.
    split_and!; [by rewrite (right_id_L [] (++)) | constructor | | lia | done |].
    + intros q Hq. by apply elem_of_nil in Hq.
    + by destruct (decide (DatabaseProxy.user_type p = lit "admin")).
Qed.

Lemma session_inv ops : ∀ ps w ps' w',
  session ops ps w = Some (ps', w') →
  NoDup (map store_of ps) →
  (∀ p, p ∈ ps → (store_of p < next_ref w)%nat) →
  ∃ more evs,
    ps' = ps ++ more
    ∧ NoDup (map store_of ps')
    ∧ (∀ p, p ∈ more → (next_ref w ≤ store_of p < next_ref w')%nat)
    ∧ (next_ref w ≤ next_ref w')%nat
    ∧ trace w' = trace w ++ evs
    ∧ calls evs = flat_map (calls_of_op ps') ops.
Proof.
  induction ops as [|op ops IH]; intros ps w ps' w' Hrun Hnd Hold.
  - injection Hrun as <- <-. exists [], []. simpl.
    rewrite !(right_id_L [] (++)). split_and!; try done.
    intros p Hp. by apply elem_of_nil in Hp.
  - simpl in Hrun. unfold bind in Hrun.
    destruct (proxy_step op ps w) as [[ps1 w1]|] eqn:Hstep; [|done].
    destruct (proxy_step_inv _ _ _ _ _ Hstep)
      as (more1 & evs1 & -> & Hnd1 & Hnew1 & Hle1 & Htr1 & Hcalls1).
    destruct (IH _ _ _ _ Hrun) as (more2 & evs2 & -> & Hnd2 & Hnew2 & Hle2 & Htr2 & Hcalls2).
    + rewrite map_app. apply NoDup_app. split_and!; [done | | done].
      intros x (p & -> & Hp)%list_elem_of_fmap (q & Hq & Hq')%list_elem_of_fmap.
      specialize (Hold _ Hp). specialize (Hnew1 _ Hq'). lia.
    + intros p [Hp | Hp]%elem_of_app.
      * specialize (Hold _ Hp). lia.
      * specialize (Hnew1 _ Hp). lia.
    + exists (more1 ++ more2), (evs1 ++ evs2).
      split_and!.
      * by rewrite (assoc_L (++)).
      * done.
      * intros p [Hp | Hp]%elem_of_app.
        -- specialize (Hnew1 _ Hp). lia.
        -- specialize (Hnew2 _ Hp). lia.
      * lia.
      * by rewrite Htr2, Htr1, (assoc_L (++)).
      * simpl. rewrite calls_app, Hcalls1, Hcalls2. f_equal.
        symmetry. rewrite <- (assoc_L (++)). by eapply calls_of_op_prefix.
Qed.

(** C10.  [DatabaseProxy(role)] takes the role alone and creates its
    store itself, under a reference no object had before.  Whatever a
    client does with the class (create proxies, read and write through
    them), two different proxies never have the same store, every store
    was created during the script, and the calls that reach real stores
    are exactly: for each read, a [read] on the store of the proxy read
    through; for each write through a proxy with role ["admin"], a
    [write] on the store of that proxy. *)
Theorem DatabaseProxy_own_store (ops : list proxy_op) (w w' : world)
    (ps : list DatabaseProxy.t) :
  session ops [] w = Some (ps, w') →
  (∀ role w0, DatabaseProxy.new role w0
     = Some ({| DatabaseProxy.user_type := role;
                DatabaseProxy.database := {| RealDatabase.self_ref := next_ref w0 |} |},
             World (trace w0) (S (next_ref w0)) (ui w0)))
  ∧ (∀ i j p q, ps !! i = Some p → ps !! j = Some q → i ≠ j →
                store_of p ≠ store_of q)
  ∧ (∀ p, p ∈ ps → (next_ref w ≤ store_of p < next_ref w')%nat)
  ∧ (∃ evs, trace w' = trace w ++ evs
            ∧ calls evs = flat_map (calls_of_op ps) ops).
Proof.
  intros Hrun.
  destruct (session_inv _ _ _ _ _ Hrun) as (more & evs & -> & Hnd & Hnew & _ & Htr & Hcalls).
  { constructor. }
  { intros p Hp. by apply elem_of_nil in Hp. }
  split_and!.
  - intros role w0. apply DatabaseProxy_new_fresh.
  - intros i j p q Hi Hj Hij Heq. apply Hij.
    apply (NoDup_lookup _ i j (store_of p) Hnd).
    + by rewrite list_lookup_fmap, Hi.
    + by rewrite list_lookup_fmap, Hj, Heq.
  - exact Hnew.
  - by exists evs.
Qed.

Lemma DatabaseProxy_own_store_witness :
  ∃ ps w',
    session demo_ops [] initial = Some (ps, w')
    ∧ map store_of ps = [0; 1]%nat
    ∧ calls (trace w') = [ (0%nat, "read"%string, []); (1%nat, "write"%string, []) ].
Proof.
  destruct (session demo_ops [] initial) as [[ps w']|] eqn:Hrun;
    [|vm_compute in Hrun; discriminate].
  exists ps, w'. split; [reflexivity|].
  destruct (DatabaseProxy_own_store demo_ops initial w' ps Hrun)
    as (_ & _ & _ & evs & Htr & Hcalls).
  vm_compute in Hrun. injection Hrun as <- <-.
  split; reflexivity.
Defined.

(** ** Construction of the components *)

Ltac quiet_run :=
  intros w; do 2 eexists; split; [reflexivity | reflexivity].

(** C8.  Constructing a component of any of the five groups returns and
    writes nothing, from every state; linking nodes with [Panel.add]
    writes nothing either; and building all the objects of the
    demonstration script without calling an operation leaves standard
    output empty. *)
Theorem construction_is_silent :
  quiet ExternalPaymentAPI.new
  ∧ (∀ api, quiet (PaymentAdapter.new api))
  ∧ quiet InvoiceGenerator.new
  ∧ quiet Database.new
  ∧ quiet MessageSender.new
  ∧ quiet BillingFacade.new
  ∧ quiet BasicMessage.new
  ∧ (∀ c, quiet (EncryptionDecorator.new c))
  ∧ (∀ c, quiet (CompressionDecorator.new c))
  ∧ (∀ label, quiet (Button.new label))
  ∧ (∀ name, quiet (TextField.new name))
  ∧ quiet Panel.new
  ∧ quiet RealDatabase.new
  ∧ (∀ role, quiet (DatabaseProxy.new role))
  ∧ (∀ self c w, match Panel.add self c w with
                 | Some (_, w') => trace w' = trace w
                 | None => True
                 end)
  ∧ stdout_of (construct_all initial) = Some [].
Proof.
  split_and!; try quiet_run; try (intros ?; quiet_run).
  - intros self c w. unfold Panel.add, bind, get_ui.
    destruct (ui w !! self) as [[| |children]|]; simpl; done.
  - by vm_compute.
Qed.

(** * Further properties of the code *)

(** ** Composite: what [render] needs and what it leaves *)

Lemma for_each_Some fuel depth cs : ∀ w u w',
  (∀ c d w0 u0 w0', UIComponent.render fuel c d w0 = Some (u0, w0') →
      ∃ t, unfolds (ui w0) c t ∧ (height t ≤ fuel)%nat) →
  for_each cs (λ c, UIComponent.render fuel c depth) w = Some (u, w') →
  ∃ ts, Forall2 (unfolds (ui w)) cs ts ∧ Forall (λ t, (height t ≤ fuel)%nat) ts.
Proof.
  induction cs as [|c cs IH]; intros w u w' Hbody Hrun.
  - exists []. split; constructor.
  - simpl in Hrun. unfold bind in Hrun.
    destruct (UIComponent.render fuel c depth w) as [[u1 w1]|] eqn:Hc; [|done].
    destruct (Hbody _ _ _ _ _ Hc) as (t & Ht & Hh).
    rewrite (render_unfolds t c fuel depth w Ht Hh) in Hc.
    injection Hc as <- <-.
    destruct (IH _ _ _ Hbody Hrun) as (ts & Hts & Hhs).
    exists (t :: ts). split; constructor; done.
Qed.

Lemma foldr_max_le fuel ts :
  Forall (λ t, (height t ≤ fuel)%nat) ts →
  (foldr Nat.max 0 (map height ts) ≤ fuel)%nat.
Proof. induction 1; simpl; lia. Qed.

Lemma render_Some_unfolds : ∀ fuel r depth w u w',
  UIComponent.render fuel r depth w = Some (u, w') →
  ∃ t, unfolds (ui w) r t ∧ (height t ≤ fuel)%nat.
Proof.
  induction fuel as [|fuel IH]; intros r depth w u w' Hrun; [done|].
  simpl in Hrun. unfold bind at 1, get_ui in Hrun.
  destruct (ui w !! r) as [[label | name | cs]|] eqn:Hr; [| | |done].
  - exists (TButton label). split; [by constructor | simpl; lia].
  - exists (TTextField name). split; [by constructor | simpl; lia].
  - rewrite (bind_Some _ _ _ _ _ (print_emit_lines _ _)) in Hrun.
    destruct (for_each_Some _ _ _ _ _ _ IH Hrun) as (ts & Hts & Hhs).
    exists (TPanel ts). split; [by econstructor|].
    simpl. apply foldr_max_le in Hhs. lia.
Qed.

(** X1.  The recursion of [render] is as deep as the tree is high, and
    [render] only prints: when the nodes below [r] form the tree [t],
    [render] returns exactly when the fuel reaches the height of [t],
    and then the world differs only by the printed lines of [t] (no
    node changed, no object created, no call on a service). *)
Theorem render_needs_height (w : world) (r : ref) (t : ui_tree) (depth : Z) (fuel : nat) :
  unfolds (ui w) r t →
  (is_Some (UIComponent.render fuel r depth w) ↔ (height t ≤ fuel)%nat)
  ∧ (∀ u w', UIComponent.render fuel r depth w = Some (u, w') →
       ui w' = ui w ∧ next_ref w' = next_ref w
       ∧ trace w' = trace w ++ map Print (map indented (preorder t depth))
       ∧ calls (trace w') = calls (trace w)).
Proof.
  intros Ht. split; [split|].
  - intros [[u w'] Hrun].
    destruct (render_Some_unfolds _ _ _ _ _ _ Hrun) as (t' & Ht' & Hh).
    by rewrite (unfolds_functional _ _ _ _ Ht Ht').
  - intros Hh. rewrite (render_unfolds t r fuel depth w Ht Hh). eauto.
  - intros u w' Hrun.
    destruct (render_Some_unfolds _ _ _ _ _ _ Hrun) as (t' & Ht' & Hh).
    rewrite <- (unfolds_functional _ _ _ _ Ht Ht') in Hh.
    rewrite (render_unfolds t r fuel depth w Ht Hh) in Hrun.
    injection Hrun as _ <-. unfold emit_lines. simpl.
    split_and!; try done. by rewrite calls_app, calls_Print, (right_id_L [] (++)).
Qed.

Lemma render_needs_height_witness :
  unfolds (ui demo_world) 0%nat demo_tree
  ∧ UIComponent.render 2 0%nat 0 demo_world = None
  ∧ is_Some (UIComponent.render 3 0%nat 0 demo_world).
Proof.
  split; [exact demo_world_unfolds|].
  destruct (render_needs_height demo_world 0%nat demo_tree 0 2 demo_world_unfolds)
    as [H2 _].
  destruct (render_needs_height demo_world 0%nat demo_tree 0 3 demo_world_unfolds)
    as [H3 _].
  split.
  - destruct (UIComponent.render 2 0%nat 0 demo_world) as [x|] eqn:E; [|reflexivity].
    assert (height demo_tree ≤ 2)%nat as Hle by (apply H2; eauto).
    vm_compute in Hle. lia.
  - apply H3. vm_compute. lia.
Defined.

(** X2.  [render] returns, for some recursion depth, exactly when every
    reference reached from the node is a node of the store and no node
    reached is its own descendant. *)
Theorem render_returns_iff (w : world) (r : ref) (depth : Z) :
  (∃ fuel, is_Some (UIComponent.render fuel r depth w))
  ↔ closed_from (ui w) r ∧ acyclic_from (ui w) r.
Proof.
  split.
  - intros (fuel & [u w'] & Hrun).
    destruct (render_Some_unfolds _ _ _ _ _ _ Hrun) as (t & Ht & _).
    by eapply unfolds_closed_acyclic.
  - intros [Hc Ha]. destruct (closed_acyclic_unfolds _ _ Hc Ha) as [t Ht].
    exists (height t). rewrite (render_unfolds t r _ depth w Ht); eauto.
Qed.

(** ** Composite: [Panel.add] *)

Lemma Panel_add_run self component w cs :
  ui w !! self = Some (Panel cs) →
  Panel.add self component w
  = Some (tt, World (trace w) (next_ref w)
                    (<[self := Panel (cs ++ [component])]> (ui w))).
Proof. intros H. unfold Panel.add, bind, get_ui. by rewrite H. Qed.

(** X3.  [add] has a result exactly when the receiver is a [Panel] of
    the store (a [Button], a [TextField] or an unknown reference has no
    [add]); it then appends the component after the children already
    there, leaves every other node as it was, prints nothing and creates
    no object.  The component itself is not looked at: it need not be a
    node yet. *)
Theorem Panel_add_appends (self component : ref) (w : world) :
  (is_Some (Panel.add self component w)
   ↔ ∃ cs, ui w !! self = Some (Panel cs))
  ∧ (∀ u w', Panel.add self component w = Some (u, w') →
       (∃ cs, ui w !! self = Some (Panel cs)
              ∧ ui w' !! self = Some (Panel (cs ++ [component])))
       ∧ (∀ r, r ≠ self → ui w' !! r = ui w !! r)
       ∧ trace w' = trace w ∧ next_ref w' = next_ref w).
Proof.
  split; [split|].
  - intros [[u w'] Hrun]. unfold Panel.add, bind, get_ui in Hrun.
    destruct (ui w !! self) as [[| |cs]|]; try done. by exists cs.
  - intros [cs Hcs]. rewrite (Panel_add_run _ _ _ _ Hcs). eauto.
  - intros u w' Hrun. unfold Panel.add, bind, get_ui in Hrun.
    destruct (ui w !! self) as [[| |cs]|] eqn:Hself; try done.
    injection Hrun as _ <-. simpl. split_and!; try done.
    + exists cs. split; [done|]. apply lookup_insert_eq.
    + intros r Hr. by apply lookup_insert_ne.
Qed.

(** A node that does not reach [self] stands for the same tree after the
    children of [self] changed. *)
Lemma unfolds_insert_unreached h self v : ∀ t r,
  unfolds h r t → ¬ rtc (child h) r self → unfolds (<[self := v]> h) r t.
Proof.
  induction t as [label | name | ts IH] using ui_tree_ind';
    intros r Hr Hreach; inversion Hr; subst;
    (assert (self ≠ r) as Hne by (intros ->; by apply Hreach)).
  - constructor. by rewrite lookup_insert_ne.
  - constructor. by rewrite lookup_insert_ne.
  - econstructor; [by rewrite lookup_insert_ne|].
    assert (Hcs : ∀ c, c ∈ cs → ¬ rtc (child h) c self).
    { intros c Hc Hcself. apply Hreach. eapply rtc_l; [|done]. by exists cs. }
    match goal with H : Forall2 _ cs ts |- _ =>
      clear - IH H Hcs; induction H as [|c t cs ts Hc _ IHf]; [constructor|] end.
    apply Forall_cons in IH as [Ht IH]. constructor.
    + apply Ht; [done|]. apply Hcs. by left.
    + apply IHf; [done|]. intros c' Hc'. apply Hcs. by right.
Qed.

Lemma preorder_Panel_snoc ts t depth :
  map indented (preorder (TPanel (ts ++ [t])) depth)
  = map indented (preorder (TPanel ts) depth)
    ++ map indented (preorder t (depth + 2)).
Proof.
  simpl. rewrite flat_map_app, map_app. simpl.
  by rewrite (right_id_L [] (++)).
Qed.

(** X4.  Adding a component that does not contain the panel grows the
    tree by one last subtree: a later [render] of the panel prints what
    it printed before, followed by the lines of the new child at
    [depth + 2]. *)
Theorem Panel_add_then_render (w : world) (self component : ref)
    (ts : list ui_tree) (tc : ui_tree) :
  unfolds (ui w) self (TPanel ts) →
  unfolds (ui w) component tc →
  ¬ rtc (child (ui w)) component self →
  ∃ w', Panel.add self component w = Some (tt, w')
        ∧ unfolds (ui w') self (TPanel (ts ++ [tc]))
        ∧ ∀ depth fuel, (height (TPanel (ts ++ [tc])) ≤ fuel)%nat →
            UIComponent.render fuel self depth w'
            = Some (tt, emit_lines
                          (map indented (preorder (TPanel ts) depth)
                           ++ map indented (preorder tc (depth + 2))) w').
Proof.
  intros Hself Hc Hreach.
  pose proof (unfolds_closed_acyclic _ _ _ Hself) as [_ Hacyclic].
  inversion Hself as [| |r cs ts' Hlook Hkids]; subst.
  eexists. split; [by apply Panel_add_run|].
  assert (Hnew : unfolds (<[self := Panel (cs ++ [component])]> (ui w)) self
                   (TPanel (ts ++ [tc]))).
  { econstructor; [apply lookup_insert_eq|].
    generalize (Panel (cs ++ [component])). intros v.
    apply Forall2_app.
    - assert (Hcs : ∀ c, c ∈ cs → ¬ rtc (child (ui w)) c self).
      { intros c Hin Hcself. apply (Hacyclic self); [done|].
        eapply tc_rtc_r; [|done]. apply tc_once. by exists cs. }
      clear - Hkids Hcs.
      induction Hkids as [|c t cs ts Hct _ IH]; constructor.
      + apply unfolds_insert_unreached; [done|]. apply Hcs. by left.
      + apply IH. intros c' Hc'. apply Hcs. by right.
    - constructor; [|constructor]. by apply unfolds_insert_unreached. }
  split; [exact Hnew|].
  intros depth fuel Hfuel.
  rewrite (render_unfolds (TPanel (ts ++ [tc])) self fuel depth
             (World (trace w) (next_ref w)
                    (<[self := Panel (cs ++ [component])]> (ui w))) Hnew Hfuel).
  by rewrite preorder_Panel_snoc.
Qed.

Lemma demo_sub_panel_unfolds :
  unfolds (ui demo_world) 2%nat
    (TPanel [TTextField (lit "Nombre"); TTextField (lit "Correo")]).
Proof.
  apply (unfolds_Panel _ _ [3; 4]%nat); [by vm_compute|].
  constructor; [apply unfolds_TextField; by vm_compute|].
  constructor; [apply unfolds_TextField; by vm_compute|].
  constructor.
Qed.

Lemma demo_button_unfolds :
  unfolds (ui demo_world) 1%nat (TButton (lit "Pagar")).
Proof. apply unfolds_Button. by vm_compute. Qed.

Lemma leaf_reaches_itself_only h r n label :
  h !! r = Some (Button label) → rtc (child h) r n → n = r.
Proof.
  intros Hr Hrtc. destruct Hrtc as [|r c n (cs & Hcs & _) _]; [done | congruence].
Qed.

Lemma Panel_add_then_render_witness :
  ∃ w', Panel.add 2%nat 1%nat demo_world = Some (tt, w')
        ∧ stdout_of (UIComponent.render 2 2%nat 0 w')
          = Some [ lit "[Panel]";
                   lit "  [Campo de Texto: Nombre]";
                   lit "  [Campo de Texto: Correo]";
                   lit "  [Botón: Pagar]" ].
Proof.
  destruct (Panel_add_then_render demo_world 2%nat 1%nat _ _
              demo_sub_panel_unfolds demo_button_unfolds)
    as (w' & Hadd & _ & Hrender).
  { intros H. apply (leaf_reaches_itself_only _ _ _ (lit "Pagar")) in H;
      [discriminate | by vm_compute]. }
  exists w'. split; [exact Hadd|].
  rewrite (Hrender 0 2%nat) by (vm_compute; lia).
  vm_compute in Hadd. injection Hadd as <-. by vm_compute.
Defined.

Lemma child_after_add h self cs component a b :
  h !! self = Some (Panel cs) →
  child h a b → child (<[self := Panel (cs ++ [component])]> h) a b.
Proof.
  intros Hself (cs' & Ha & Hb). destruct (decide (a = self)) as [->|Hne].
  - exists (cs ++ [component]). split; [apply lookup_insert_eq|].
    apply elem_of_app. left. congruence.
  - exists cs'. split; [by rewrite lookup_insert_ne | done].
Qed.

(** X5.  Adding to a panel a component that contains the panel (the
    panel itself, or a panel it sits in) is accepted by [add], and from
    then on [render] of the panel never returns, whatever the recursion
    depth allowed. *)
Theorem Panel_add_beneath_itself (w w' : world) (self component : ref) (u : unit) :
  Panel.add self component w = Some (u, w') →
  rtc (child (ui w)) component self →
  ∀ fuel depth w'', ui w'' = ui w' →
    UIComponent.render fuel self depth w'' = None.
Proof.
  intros Hadd Hreach fuel depth w'' Hui.
  unfold Panel.add, bind, get_ui in Hadd.
  destruct (ui w !! self) as [[| |cs]|] eqn:Hself; try done.
  injection Hadd as _ <-. simpl in Hui.
  assert (Hcycle : tc (child (ui w'')) self self).
  { rewrite Hui. eapply tc_rtc_r.
    - apply tc_once. exists (cs ++ [component]).
      split; [apply lookup_insert_eq|]. apply elem_of_app. right. by left.
    - eapply rtc_subrel; [|exact Hreach].
      intros a b. by apply child_after_add. }
  destruct (UIComponent.render fuel self depth w'') as [[u' w3]|] eqn:Hrun; [|done].
  destruct (render_Some_unfolds _ _ _ _ _ _ Hrun) as (t & Ht & _).
  destruct (unfolds_closed_acyclic _ _ _ Ht) as [_ Hacyclic].
  by destruct (Hacyclic self).
Qed.

Lemma Panel_add_beneath_itself_witness :
  ∃ w', Panel.add 2%nat 0%nat demo_world = Some (tt, w')
        ∧ rtc (child (ui demo_world)) 0%nat 2%nat
        ∧ UIComponent.render 1000 2%nat 0 w' = None.
Proof.
  destruct (Panel.add 2%nat 0%nat demo_world) as [[[] w']|] eqn:Hadd;
    [|vm_compute in Hadd; discriminate].
  assert (Hreach : rtc (child (ui demo_world)) 0%nat 2%nat).
  { apply rtc_once. exists [1; 2]%nat. split; [by vm_compute | set_solver]. }
  exists w'. split; [reflexivity|]. split; [exact Hreach|].
  exact (Panel_add_beneath_itself demo_world w' 2%nat 0%nat tt Hadd Hreach
           1000%nat 0 w' eq_refl).
Defined.

(** ** Composite: new nodes *)

Lemma wf_world_next_free w : wf_world w → ui w !! next_ref w = None.
Proof.
  intros Hwf. destruct (ui w !! next_ref w) eqn:E; [|done].
  assert (next_ref w < next_ref w)%nat; [apply Hwf; eauto | lia].
Qed.

Lemma unfolds_insert_free h k v t r :
  h !! k = None → unfolds h r t → unfolds (<[k := v]> h) r t.
Proof.
  intros Hk Hr. apply unfolds_insert_unreached; [done|].
  intros Hreach. destruct (unfolds_closed_acyclic _ _ _ Hr) as [Hclosed _].
  destruct (Hclosed k Hreach) as [x Hx]. congruence.
Qed.

Lemma wf_world_insert_next t n h c :
  wf_world (World t n h) → wf_world (World t (S n) (<[n := c]> h)).
Proof.
  intros Hwf r. simpl. destruct (decide (n = r)) as [<-|Hne]; [lia|].
  rewrite lookup_insert_ne by done. intros Hr. specialize (Hwf r Hr). simpl in Hwf. lia.
Qed.

(** X6.  In a world where every node was numbered by a constructor,
    [Button(label)], [TextField(name)] and [Panel()] return a reference
    no node has, keep the world so, and leave every tree that was there
    as it was; the new node is a leaf with the given text, or a panel
    without children.  [add] keeps the numbering too. *)
Theorem new_nodes_are_fresh (w : world) :
  wf_world w →
  (∀ label, ∃ w', Button.new label w = Some (next_ref w, w')
      ∧ ui w !! next_ref w = None
      ∧ wf_world w'
      ∧ unfolds (ui w') (next_ref w) (TButton label)
      ∧ ∀ r t, unfolds (ui w) r t → unfolds (ui w') r t)
  ∧ (∀ name, ∃ w', TextField.new name w = Some (next_ref w, w')
      ∧ ui w !! next_ref w = None
      ∧ wf_world w'
      ∧ unfolds (ui w') (next_ref w) (TTextField name)
      ∧ ∀ r t, unfolds (ui w) r t → unfolds (ui w') r t)
  ∧ (∃ w', Panel.new w = Some (next_ref w, w')
      ∧ ui w !! next_ref w = None
      ∧ wf_world w'
      ∧ unfolds (ui w') (next_ref w) (TPanel [])
      ∧ ∀ r t, unfolds (ui w) r t → unfolds (ui w') r t)
  ∧ (∀ self component u w', Panel.add self component w = Some (u, w') →
       wf_world w').
Proof.
  intros Hwf. pose proof (wf_world_next_free w Hwf) as Hfree.
  destruct w as [t n h]. simpl in *. split_and!.
  - intros label. eexists. split; [reflexivity|]. simpl.
    split_and!; [done | by apply wf_world_insert_next | |].
    + constructor. apply lookup_insert_eq.
    + intros r t' Hr. by apply unfolds_insert_free.
  - intros name. eexists. split; [reflexivity|]. simpl.
    split_and!; [done | by apply wf_world_insert_next | |].
    + constructor. apply lookup_insert_eq.
    + intros r t' Hr. by apply unfolds_insert_free.
  - eexists. split; [reflexivity|]. simpl.
    split_and!; [done | by apply wf_world_insert_next | |].
    + econstructor; [apply lookup_insert_eq | constructor].
    + intros r t' Hr. by apply unfolds_insert_free.
  - intros self component u w' Hadd. unfold Panel.add, bind, get_ui in Hadd.
    simpl in Hadd. destruct (h !! self) as [[| |cs]|] eqn:Hself; try done.
    injection Hadd as _ <-. intros r. simpl.
    destruct (decide (self = r)) as [<-|Hne].
    + intros _. apply (Hwf self). simpl. eauto.
    + rewrite lookup_insert_ne by done. apply (Hwf r).
Qed.

Lemma wf_world_demo : wf_world demo_world.
Proof.
  intros r [c Hr].
  destruct (decide (r < 5)%nat) as [Hlt|Hge]; [exact Hlt|].
  exfalso. revert Hr. change (ui demo_world) with
    (<[0%nat := Panel [1; 2]%nat]>
       (<[2%nat := Panel [3; 4]%nat]>
          (<[4%nat := TextField (lit "Correo")]>
             (<[3%nat := TextField (lit "Nombre")]>
                (<[2%nat := Panel [3]%nat]>
                   (<[2%nat := Panel []]>
                      (<[0%nat := Panel [1]%nat]>
                         (<[1%nat := Button (lit "Pagar")]>
                            (<[0%nat := Panel []]> (∅ : gmap ref UIComponent)))))))))).
  rewrite !lookup_insert_ne by lia. by rewrite lookup_empty.
Qed.

Lemma new_nodes_are_fresh_witness :
  wf_world demo_world
  ∧ ∃ w', Button.new (lit "Cancelar") demo_world = Some (5%nat, w')
          ∧ unfolds (ui w') 0%nat demo_tree.
Proof.
  split; [exact wf_world_demo|].
  destruct (new_nodes_are_fresh demo_world wf_world_demo) as (Hbutton & _).
  destruct (Hbutton (lit "Cancelar")) as (w' & Hnew & _ & _ & _ & Hkeep).
  exists w'. split; [exact Hnew|]. apply Hkeep. exact demo_world_unfolds.
Defined.

(** ** Composite: the [depth] argument *)

Lemma preorder_shift t : ∀ d k,
  preorder t (d + k) = map (λ p, (fst p + k, snd p)) (preorder t d).
Proof.
  induction t as [label | name | ts IH] using ui_tree_ind'; intros d k;
    [done | done |].
  simpl. f_equal.
  induction IH as [|t ts Ht _ IHts]; [done|].
  simpl. rewrite map_app, <- IHts. f_equal.
  replace (d + k + 2) with (d + 2 + k) by lia. apply Ht.
Qed.

Lemma height_pos t : (1 ≤ height t)%nat.
Proof. destruct t; simpl; lia. Qed.

Lemma preorder_depths t : ∀ d,
  Forall (λ p, d ≤ fst p ≤ d + 2 * (Z.of_nat (height t) - 1)) (preorder t d).
Proof.
  induction t as [label | name | ts IH] using ui_tree_ind'; intros d;
    [repeat constructor; simpl; lia | repeat constructor; simpl; lia |].
  simpl preorder. constructor; [simpl fst; pose proof (height_pos (TPanel ts)); lia|].
  apply Forall_forall. intros p Hp.
  apply list_elem_of_In, in_flat_map in Hp as (c & Hc & Hp).
  apply list_elem_of_In in Hc, Hp.
  rewrite Forall_forall in IH. specialize (IH c Hc (d + 2)).
  rewrite Forall_forall in IH. specialize (IH p Hp).
  apply height_elem_of in Hc. simpl height. lia.
Qed.

Lemma spaces_add a k : 0 ≤ a → 0 ≤ k → spaces (a + k) = spaces k ++ spaces a.
Proof.
  intros Ha Hk. unfold spaces.
  by rewrite <- replicate_add, Z2Nat.inj_add, Nat.add_comm.
Qed.

(** X7.  Rendering [k >= 0] levels deeper only indents: at depth
    [d + k], with [d >= 0], [render] prints the lines it prints at depth
    [d], each with [k] more spaces in front. *)
Theorem render_deeper_indents (w : world) (r : ref) (t : ui_tree)
    (d k : Z) (fuel : nat) :
  unfolds (ui w) r t → (height t ≤ fuel)%nat → 0 ≤ d → 0 ≤ k →
  UIComponent.render fuel r (d + k) w
  = Some (tt, emit_lines (map (λ line, spaces k ++ line)
                            (map indented (preorder t d))) w).
Proof.
  intros Ht Hfuel Hd Hk. rewrite (render_unfolds t r fuel (d + k) w Ht Hfuel).
  do 3 f_equal. rewrite preorder_shift, !map_map.
  apply map_ext_in. intros p Hp%list_elem_of_In.
  pose proof (preorder_depths t d) as Hall. rewrite Forall_forall in Hall.
  specialize (Hall p Hp). unfold indented. simpl.
  rewrite spaces_add by lia. by rewrite (assoc_L (++)).
Qed.

Lemma render_deeper_indents_witness :
  stdout_of (UIComponent.render 3 0%nat (1 + 3) demo_world)
  = Some [ lit "    [Panel]";
           lit "      [Botón: Pagar]";
           lit "      [Panel]";
           lit "        [Campo de Texto: Nombre]";
           lit "        [Campo de Texto: Correo]" ].
Proof.
  rewrite (render_deeper_indents demo_world 0%nat demo_tree 1 3 3 demo_world_unfolds)
    by (vm_compute; (lia || discriminate)).
  by vm_compute.
Defined.

(** X8.  A negative [depth] is no error: [" " * depth] is then empty.
    When even the deepest level of the tree is at depth 0 or below, no
    line is indented at all. *)
Theorem render_negative_depth (w : world) (r : ref) (t : ui_tree)
    (d : Z) (fuel : nat) :
  unfolds (ui w) r t → (height t ≤ fuel)%nat →
  d + 2 * (Z.of_nat (height t) - 1) ≤ 0 →
  UIComponent.render fuel r d w
  = Some (tt, emit_lines (map snd (preorder t d)) w).
Proof.
  intros Ht Hfuel Hd. rewrite (render_unfolds t r fuel d w Ht Hfuel).
  do 3 f_equal. apply map_ext_in. intros p Hp%list_elem_of_In.
  pose proof (preorder_depths t d) as Hall. rewrite Forall_forall in Hall.
  specialize (Hall p Hp). unfold indented, spaces.
  replace (Z.to_nat (fst p)) with 0%nat by lia. reflexivity.
Qed.

Lemma render_negative_depth_witness :
  stdout_of (UIComponent.render 3 0%nat (-4) demo_world)
  = Some [ lit "[Panel]";
           lit "[Botón: Pagar]";
           lit "[Panel]";
           lit "[Campo de Texto: Nombre]";
           lit "[Campo de Texto: Correo]" ].
Proof.
  rewrite (render_negative_depth demo_world 0%nat demo_tree (-4) 3 demo_world_unfolds)
    by (vm_compute; (lia || discriminate)).
  by vm_compute.
Defined.

(** ** Decorator: what the layers keep of the message *)

(** X9.  Two encryption layers undo each other's reversal: the base
    sender receives the message itself, in clear, between the outer pair
    of tags and the reversed inner pair. *)
Theorem double_encryption_is_clear (component : MessageComponent) (message : str) :
  MessageComponent.send (EncryptionDecorator (EncryptionDecorator component)) message
  = MessageComponent.send component
      (lit "<encriptado>>odatpircne/<" ++ message ++ lit ">odatpircne<</encriptado>").
Proof.
  transitivity (MessageComponent.send component
                  (transform Encryption (transform Encryption message)));
    [reflexivity|].
  f_equal. unfold transform, reversed.
  rewrite !reverse_app, reverse_involutive, <- !(assoc_L (++)).
  reflexivity.
Qed.

Lemma take10_transform d x : take 10 (transform d x) = take 10 (transform d []).
Proof. by destruct d. Qed.

Lemma compression_after_layer d x y :
  transform Compression (transform d x) = transform Compression (transform d y).
Proof.
  unfold transform at 1 3, prefix10.
  by rewrite (take10_transform d x), (take10_transform d y).
Qed.

Lemma delivered_app ds1 ds2 m :
  delivered (ds1 ++ ds2) m = delivered ds2 (delivered ds1 m).
Proof. apply foldl_app. Qed.

(** X10.  A compression layer that sits inside another decorator sees
    only that decorator's opening tag in its first 10 characters, so
    nothing of the message gets through: with any layers around and
    below, the chain hands the base sender the same text for every
    message. *)
Theorem compression_inside_loses_message
    (outer : list decorator) (d : decorator) (inner : list decorator)
    (base : ref) (m m' : str) (w : world) :
  emitted (MessageComponent.send
             (chain (outer ++ d :: Compression :: inner) base) m) w
  = emitted (MessageComponent.send
               (chain (outer ++ d :: Compression :: inner) base) m') w.
Proof.
  rewrite !emitted_send.
  destruct (layers_chain (outer ++ d :: Compression :: inner) base) as [-> ->].
  rewrite !delivered_app.
  change (delivered (d :: Compression :: inner) (delivered outer m))
    with (delivered inner (transform Compression (transform d (delivered outer m)))).
  change (delivered (d :: Compression :: inner) (delivered outer m'))
    with (delivered inner (transform Compression (transform d (delivered outer m')))).
  by rewrite (compression_after_layer d (delivered outer m) (delivered outer m')).
Qed.

Example compression_inside_example :
  delivered [Encryption; Compression] (lit "HELLO WORLD")
  = delivered [Encryption; Compression] (lit "otro mensaje").
Proof. by vm_compute. Qed.

Lemma emitted_send_inj c m m' w :
  emitted (MessageComponent.send c m) w = emitted (MessageComponent.send c m') w
  ↔ delivered (layers c) m = delivered (layers c) m'.
Proof.
  rewrite !emitted_send. split; [congruence | by intros ->].
Qed.

(** X11.  The encryption layer loses nothing: two messages reach the
    base sender as the same text only if they are the same message.  The
    compression layer keeps the first 10 characters and nothing else:
    two messages reach the base sender as the same text exactly when
    they agree on their first 10 characters. *)
Theorem layers_keep (base : ref) (m m' : str) (w : world) :
  (emitted (MessageComponent.send (EncryptionDecorator (BasicMessage base)) m) w
   = emitted (MessageComponent.send (EncryptionDecorator (BasicMessage base)) m') w
   ↔ m = m')
  ∧ (emitted (MessageComponent.send (CompressionDecorator (BasicMessage base)) m) w
     = emitted (MessageComponent.send (CompressionDecorator (BasicMessage base)) m') w
     ↔ take 10 m = take 10 m').
Proof.
  rewrite !emitted_send_inj. split.
  - change (transform Encryption m = transform Encryption m' ↔ m = m').
    unfold transform, reversed. split; [|by intros ->].
    intros H. apply app_inv_head, app_inv_tail in H. by apply (inj reverse).
  - change (transform Compression m = transform Compression m'
            ↔ take 10 m = take 10 m').
    unfold transform, prefix10. split; [|by intros ->].
    intros H. by apply app_inv_head, app_inv_tail in H.
Qed.

(** ** Proxy: access control over a whole script *)

Lemma proxy_step_roles op ps w ps1 w1 :
  proxy_step op ps w = Some (ps1, w1) →
  ∀ p, p ∈ ps1 → p ∈ ps ∨ op = NewProxy (DatabaseProxy.user_type p).
Proof.
  destruct op as [role | k | k]; simpl.
  - rewrite (bind_Some _ _ _ _ _ (DatabaseProxy_new_fresh role w)).
    intros [= <- <-] p [Hp | ->%list_elem_of_singleton]%elem_of_app; [by left | by right].
  - destruct (ps !! k) as [q|]; [|done].
    rewrite (bind_Some _ _ _ _ _ (DatabaseProxy_read_run q w)).
    intros [= <- <-] p Hp. by left.
  - destruct (ps !! k) as [q|]; [|done].
    rewrite (bind_Some _ _ _ _ _ (DatabaseProxy_write_run q w)).
    intros [= <- <-] p Hp. by left.
Qed.

Lemma session_roles ops : ∀ ps w ps' w',
  session ops ps w = Some (ps', w') →
  ∀ p, p ∈ ps' → p ∈ ps ∨ NewProxy (DatabaseProxy.user_type p) ∈ ops.
Proof.
  induction ops as [|op ops IH]; intros ps w ps' w' Hrun p Hp.
  - injection Hrun as <- <-. by left.
  - simpl in Hrun. unfold bind in Hrun.
    destruct (proxy_step op ps w) as [[ps1 w1]|] eqn:Hstep; [|done].
    destruct (IH _ _ _ _ Hrun p Hp) as [Hp1 | Hnew]; [|right; by right].
    destruct (proxy_step_roles _ _ _ _ _ Hstep p Hp1) as [Hold | ->];
      [by left | right; by left].
Qed.

(** X12.  In any script over the proxy class, every call that reaches a
    real store goes to the store of a proxy of the script; a [write]
    reaches a store only through a proxy whose role is ["admin"], so a
    script that creates no proxy with that role never writes to any
    store. *)
Theorem session_writes_need_admin (ops : list proxy_op) (w w' : world)
    (ps : list DatabaseProxy.t) :
  session ops [] w = Some (ps, w') →
  ∃ evs, trace w' = trace w ++ evs
    ∧ (∀ r name args, (r, name, args) ∈ calls evs →
         ∃ p, p ∈ ps ∧ store_of p = r ∧ args = []
              ∧ (name = "read"%string
                 ∨ name = "write"%string
                   ∧ DatabaseProxy.user_type p = lit "admin"
                   ∧ NewProxy (lit "admin") ∈ ops))
    ∧ (NewProxy (lit "admin") ∉ ops →
         ∀ r args, (r, "write"%string, args) ∉ calls evs).
Proof.
  intros Hrun.
  destruct (session_inv _ _ _ _ _ Hrun) as (more & evs & -> & _ & _ & _ & Htr & Hcalls).
  { constructor. }
  { intros p Hp. by apply elem_of_nil in Hp. }
  change ([] ++ more) with more in *.
  assert (Hall : ∀ r name args, (r, name, args) ∈ calls evs →
            ∃ p, p ∈ more ∧ store_of p = r ∧ args = []
                 ∧ (name = "read"%string
                    ∨ name = "write"%string
                      ∧ DatabaseProxy.user_type p = lit "admin"
                      ∧ NewProxy (lit "admin") ∈ ops)).
  { intros r name args Hin. rewrite Hcalls in Hin.
    apply list_elem_of_In, in_flat_map in Hin as (op & Hop & Hin).
    apply list_elem_of_In in Hin.
    destruct op as [role | k | k]; simpl in Hin.
    - by apply elem_of_nil in Hin.
    - destruct (more !! k) as [p|] eqn:Hk; [|by apply elem_of_nil in Hin].
      apply list_elem_of_singleton in Hin. injection Hin as -> -> ->.
      exists p. split_and!; [by eapply list_elem_of_lookup_2 | done | done | by left].
    - destruct (more !! k) as [p|] eqn:Hk; [|by apply elem_of_nil in Hin].
      destruct (decide (DatabaseProxy.user_type p = lit "admin")) as [Hadmin|];
        [|by apply elem_of_nil in Hin].
      apply list_elem_of_singleton in Hin. injection Hin as -> -> ->.
      assert (Hp : p ∈ more) by (by eapply list_elem_of_lookup_2).
      exists p. split_and!; [done | done | done |]. right. split_and!; [done | done |].
      destruct (session_roles _ _ _ _ _ Hrun p Hp) as [Hnil | Hnew];
        [by apply elem_of_nil in Hnil | by rewrite <- Hadmin]. }
  exists evs. split_and!; [done | exact Hall |].
  intros Hno r args Hin.
  destruct (Hall _ _ _ Hin) as (p & _ & _ & _ & [Hname | (_ & _ & Hadmin)]);
    [discriminate | by apply Hno].
Qed.

Lemma session_writes_need_admin_witness :
  ∃ ps w',
    session [NewProxy (lit "invitado"); ProxyRead 0; ProxyWrite 0] [] initial
    = Some (ps, w')
    ∧ calls (trace w') = [ (0%nat, "read"%string, []) ].
Proof.
  destruct (session [NewProxy (lit "invitado"); ProxyRead 0; ProxyWrite 0] [] initial)
    as [[ps w']|] eqn:Hrun; [|vm_compute in Hrun; discriminate].
  exists ps, w'. split; [reflexivity|].
  destruct (session_writes_need_admin _ _ _ _ Hrun) as (evs & Htr & _ & Hnowrite).
  vm_compute in Hrun. injection Hrun as <- <-. reflexivity.
Defined.

(** ** Adapter and Facade: amounts are not checked *)

Lemma str_of_int_negative a : a < 0 → str_of_int a = lit "-" ++ str_of_int (- a).
Proof. destruct a as [|p|p]; [lia | lia | reflexivity]. Qed.

(** X13.  Neither [pay] nor [process_billing] checks the amount: a
    negative amount is passed on unchanged to the external API and to
    the billing services, and is printed with its minus sign. *)
Theorem negative_amounts_pass (adapter : PaymentAdapter.t) (facade : BillingFacade.t)
    (user : str) (a : Z) (w : world) :
  a < 0 →
  (∃ evs, emitted (PaymentAdapter.pay adapter a) w = Some evs
     ∧ calls evs = [ (ExternalPaymentAPI.self_ref (PaymentAdapter.external_api adapter),
                      "send_payment"%string, [VInt a]) ]
     ∧ printed evs = [ lit "[Adapter] Adaptando interfaz interna a API externa...";
                       lit "[API Externa] Pago enviado por $-" ++ str_of_int (- a) ])
  ∧ (∃ evs, emitted (BillingFacade.process_billing facade user a) w = Some evs
       ∧ printed evs
         = [ lit "[Fachada] Procesando facturación...";
             lit "[Factura] Generando factura para " ++ user
               ++ lit " por $-" ++ str_of_int (- a);
             lit "[BD] Guardando factura de " ++ user
               ++ lit " por $-" ++ str_of_int (- a);
             lit "[Mensaje] Enviado: Factura generada para " ++ user
               ++ lit " por $-" ++ str_of_int (- a) ]).
Proof.
  intros Ha. pose proof (str_of_int_negative a Ha) as Hstr. split.
  - eexists. split; [eapply emitted_app|].
    + unfold PaymentAdapter.pay, ExternalPaymentAPI.send_payment. by io_run.
    + split; [reflexivity|]. rewrite Hstr. reflexivity.
  - eexists. split; [eapply emitted_app|].
    + unfold BillingFacade.process_billing, InvoiceGenerator.generate,
        Database.save_invoice, MessageSender.send. by io_run.
    + rewrite Hstr. reflexivity.
Qed.

Lemma negative_amounts_pass_witness :
  stdout_of (PaymentAdapter.pay
               {| PaymentAdapter.external_api := {| ExternalPaymentAPI.self_ref := 0%nat |} |}
               (-25) initial)
  = Some [ lit "[Adapter] Adaptando interfaz interna a API externa...";
           lit "[API Externa] Pago enviado por $-25" ].
Proof.
  destruct (negative_amounts_pass
              {| PaymentAdapter.external_api := {| ExternalPaymentAPI.self_ref := 0%nat |} |}
              {| BillingFacade.generator := {| InvoiceGenerator.self_ref := 1%nat |};
                 BillingFacade.database := {| Database.self_ref := 2%nat |};
                 BillingFacade.sender := {| MessageSender.self_ref := 3%nat |} |}
              (lit "Alice") (-25) initial) as [_ _]; [lia|].
  by vm_compute.
Defined.

(** ** The demonstration script *)

